(** * evelink/rate_limit.py: sliding-window rate limiter and request/error gate

    A shallow embedding of [RateLimit] and [RateLimitManager].

    Conventions of the model.
    - A timestamp (a Python float of seconds) is an exact rational [Q]; the
      margin [1e-3] is [1 # 1000].
    - [collections.deque(maxlen=limit)] is a list, oldest record first; a
      pending slot ([None]) is [None], a finished one is [Some epoch].
    - [time.time()] reads a clock that is part of the state.  Code that runs
      while the lock is held takes no time, [time.sleep d] moves the clock
      forward by [d], and between two critical sections the clock moves
      forward by any non-negative amount.
    - A critical section ([with self.__lock:]) is one atomic step.  The lock
      is given up inside [reserve] only at [self.__cond.wait()], so a
      [reserve] call is a sequence of atomic segments separated by waits. *)

From Stdlib Require Import List Bool Arith Lia QArith Lqa Sorted.
Import ListNotations.

Local Open Scope Q_scope.

(** ** Python values and exceptions *)

(** The exceptions the modelled code can raise: [deque.remove] of a missing
    value and [time.sleep] of a negative length raise [ValueError] (the latter
    is [IOError] on Python 2); indexing an empty deque raises [IndexError]. *)
Inductive exn : Type :=
| ValueError
| IndexError.

(** Result of a call that either returns or raises; the state reached is
    carried in both cases, since a raise does not undo earlier mutations. *)
Inductive result (A : Type) : Type :=
| Ok (a : A)
| Raise (e : exn) (a : A).

Arguments Ok {A} a.
Arguments Raise {A} e a.

Definition Qlt_bool (x y : Q) : bool := negb (Qle_bool y x).

(** ** The deque *)

Definition deque : Type := list (option Q).

(** [deque.append] on a deque built with [maxlen]: at full length the oldest
    item is discarded from the left. *)
Definition deque_append (maxlen : nat) (d : deque) (x : option Q) : deque :=
  if length d <? maxlen then d ++ [x]
  else match maxlen with
       | O => d
       | S _ => tl d ++ [x]
       end.

(** [deque.remove(None)]: removes the first item that is [None]; [None] when
    there is none (Python raises [ValueError]). *)
Fixpoint deque_remove_None (d : deque) : option deque :=
  match d with
  | [] => None
  | None :: d' => Some d'
  | Some epoch :: d' =>
      match deque_remove_None d' with
      | Some r => Some (Some epoch :: r)
      | None => None
      end
  end.

(** The loop of [release]:
    [for i, epoch in enumerate(self.recents): if epoch is None: self.recents[i] = ts_finished; break] *)
Fixpoint fill_leftmost_pending (ts_finished : Q) (d : deque) : deque :=
  match d with
  | [] => []
  | None :: d' => Some ts_finished :: d'
  | Some epoch :: d' => Some epoch :: fill_leftmost_pending ts_finished d'
  end.

(** ** RateLimit *)

Record RateLimit : Type := mkRateLimit {
  limit : nat;
  window : Q;
  recents : deque
}.

Definition RateLimit_init (limit : nat) (window_secs : Q) : RateLimit :=
  mkRateLimit limit window_secs [].

Definition set_recents (self : RateLimit) (d : deque) : RateLimit :=
  mkRateLimit (limit self) (window self) d.

(** The margin added to every sleep. *)
Definition margin : Q := 1 # 1000.

(** The loop of [__forget_old] for a fixed [threshold]:
    [while recents and recents[0] is not None and recents[0] < threshold: recents.popleft()] *)
Fixpoint popleft_while_old (threshold : Q) (d : deque) : deque :=
  match d with
  | Some epoch :: d' =>
      if Qlt_bool epoch threshold then popleft_while_old threshold d' else d
  | _ => d
  end.

Definition forget_old (now : Q) (self : RateLimit) : RateLimit :=
  let threshold := now - window self in
  set_recents self (popleft_while_old threshold (recents self)).

(** [release], the critical section up to [notify]: [Raise] when
    [deque.remove] raises, in which case [notify] is not reached. *)
Definition release (ts_finished : Q) (does_not_count : bool) (self : RateLimit)
  : result RateLimit :=
  if does_not_count then
    match deque_remove_None (recents self) with
    | Some d => Ok (set_recents self d)
    | None => Raise ValueError self
    end
  else Ok (set_recents self (fill_leftmost_pending ts_finished (recents self))).

(** How an atomic segment of [reserve] ends.  Every case carries the clock,
    the limiter and the lengths passed to [time.sleep] so far, the first
    call first. *)
Inductive outcome : Type :=
| Returned (now : Q) (self : RateLimit) (slept : list Q)
    (* the slot was appended and the call returned *)
| Parked (now : Q) (self : RateLimit) (slept : list Q)
    (* blocked in [self.__cond.wait()], the lock given up *)
| Raised (e : exn) (now : Q) (self : RateLimit) (slept : list Q)
    (* an exception left the call *)
| OutOfFuel (now : Q) (self : RateLimit) (slept : list Q).

(** [reserve] from the test of the inner loop [while self.recents[0] is None],
    which is where a call starts its pass through the body of the outer loop
    and where it resumes after [wait].  [fuel] bounds the further iterations
    of the outer loop. *)
Fixpoint reserve_inner (fuel : nat) (now : Q) (self : RateLimit) (slept : list Q)
  : outcome :=
  match recents self with
  | [] => Raised IndexError now self slept
  | None :: _ => Parked now self slept
  | Some epoch :: _ =>
      let epoch_okay := epoch + window self in
      let secs_to_wait := epoch_okay - now in
      let d := secs_to_wait + margin in
      if Qlt_bool d 0 then Raised ValueError now self (slept ++ [d])
      else
        let now' := now + d in
        let self' := forget_old now' self in
        if length (recents self') =? limit self' then
          match fuel with
          | O => OutOfFuel now' self' (slept ++ [d])
          | S fuel' => reserve_inner fuel' now' self' (slept ++ [d])
          end
        else
          Returned now'
            (set_recents self' (deque_append (limit self') (recents self') None))
            (slept ++ [d])
  end.

(** [reserve] from the test of the outer loop [while len(self.recents) == self.limit]. *)
Definition reserve_outer (fuel : nat) (now : Q) (self : RateLimit) : outcome :=
  if length (recents self) =? limit self then reserve_inner fuel now self []
  else Returned now
         (set_recents self (deque_append (limit self) (recents self) None)) [].

(** [reserve], from taking the lock to the first wait, return or raise. *)
Definition reserve_fuel (fuel : nat) (now : Q) (self : RateLimit) : outcome :=
  reserve_outer fuel now (forget_old now self).

(** Each pass through the outer loop pops at least one record, so the length
    of the deque bounds the number of passes. *)
Definition reserve (now : Q) (self : RateLimit) : outcome :=
  reserve_fuel (length (recents self)) now self.

(** The segment run by a waiter that [wait] hands the lock back to. *)
Definition reserve_resume (now : Q) (self : RateLimit) : outcome :=
  reserve_inner (length (recents self)) now self [].

(** A finished record whose timestamp is strictly below [threshold]. *)
Definition old (threshold : Q) (r : option Q) : Prop :=
  exists epoch, r = Some epoch /\ epoch < threshold.

(** The parts of an [outcome]. *)
Definition outcome_limiter (o : outcome) : RateLimit :=
  match o with
  | Returned _ self _ | Parked _ self _ | Raised _ _ self _ | OutOfFuel _ self _ => self
  end.

Definition outcome_clock (o : outcome) : Q :=
  match o with
  | Returned now _ _ | Parked now _ _ | Raised _ now _ _ | OutOfFuel now _ _ => now
  end.

Definition outcome_slept (o : outcome) : list Q :=
  match o with
  | Returned _ _ slept | Parked _ _ slept | Raised _ _ _ slept | OutOfFuel _ _ slept => slept
  end.

Definition out_of_fuel (o : outcome) : bool :=
  match o with OutOfFuel _ _ _ => true | _ => false end.

(** The limiter has limit [lim] and holds at most [lim] records. *)
Definition within (lim : nat) (self : RateLimit) : Prop :=
  limit self = lim /\ (length (recents self) <= lim)%nat.

(** ** One limiter shared by threads *)

(** The limiter with its clock and its condition variable.  [parked] counts
    the threads blocked in [wait] that no [notify] has picked yet, [woken]
    those a [notify] has picked and that have not run since.  [sleeps] keeps
    every length passed to [time.sleep] and [raised] every exception that
    left a call, oldest first. *)
Record world : Type := mkWorld {
  clock : Q;
  bucket : RateLimit;
  parked : nat;
  woken : nat;
  sleeps : list Q;
  raised : list exn
}.

Definition world_init (limit : nat) (window_secs : Q) : world :=
  mkWorld 0 (RateLimit_init limit window_secs) 0 0 [] [].

(** What the threads do, one atomic step each. *)
Inductive call : Type :=
| Reserve                                  (* a thread enters [reserve] *)
| Wake                                     (* a notified waiter gets the lock back *)
| Release (ts_finished : Q) (does_not_count : bool)
| Tick (d : Q).                            (* time passes, nobody holds the lock *)

(** The state after a segment of [reserve] that started in [w]. *)
Definition absorb (w : world) (o : outcome) : world :=
  match o with
  | Returned now self slept =>
      mkWorld now self (parked w) (woken w) (sleeps w ++ slept) (raised w)
  | Parked now self slept =>
      mkWorld now self (S (parked w)) (woken w) (sleeps w ++ slept) (raised w)
  | Raised e now self slept =>
      mkWorld now self (parked w) (woken w) (sleeps w ++ slept) (raised w ++ [e])
  | OutOfFuel now self slept =>
      mkWorld now self (parked w) (woken w) (sleeps w ++ slept) (raised w)
  end.

(** [self.__cond.notify()]: one waiter, if there is one, becomes runnable. *)
Definition notify (w : world) : world :=
  match parked w with
  | O => w
  | S n => mkWorld (clock w) (bucket w) n (S (woken w)) (sleeps w) (raised w)
  end.

Definition step (w : world) (c : call) : world :=
  match c with
  | Reserve => absorb w (reserve (clock w) (bucket w))
  | Wake =>
      match woken w with
      | O => w
      | S n =>
          absorb (mkWorld (clock w) (bucket w) (parked w) n (sleeps w) (raised w))
                 (reserve_resume (clock w) (bucket w))
      end
  | Release ts_finished does_not_count =>
      match release ts_finished does_not_count (bucket w) with
      | Ok self =>
          notify (mkWorld (clock w) self (parked w) (woken w) (sleeps w) (raised w))
      | Raise e self =>
          mkWorld (clock w) self (parked w) (woken w) (sleeps w) (raised w ++ [e])
      end
  | Tick d =>
      if Qle_bool 0 d
      then mkWorld (clock w + d) (bucket w) (parked w) (woken w) (sleeps w) (raised w)
      else w
  end.

Definition run (w : world) (calls : list call) : world := fold_left step calls w.

(** The timestamps of the finished records of a deque, in queue order. *)
Fixpoint finished_epochs (d : deque) : list Q :=
  match d with
  | [] => []
  | Some epoch :: d' => epoch :: finished_epochs d'
  | None :: d' => finished_epochs d'
  end.

(** The timestamps handed to the releases that record one, in call order. *)
Fixpoint release_stamps (calls : list call) : list Q :=
  match calls with
  | [] => []
  | Release ts_finished false :: calls' => ts_finished :: release_stamps calls'
  | _ :: calls' => release_stamps calls'
  end.

Definition is_pending (r : option Q) : bool :=
  match r with None => true | Some _ => false end.

(** Every finished record sits before every pending one. *)
Fixpoint finished_first (d : deque) : bool :=
  match d with
  | [] => true
  | Some _ :: d' => finished_first d'
  | None :: d' => forallb is_pending d'
  end.

(** The queue is in shape and its finished timestamps, followed by the
    timestamps [future] still to be handed to [release], are in
    non-decreasing order. *)
Definition ordered (future : list Q) (self : RateLimit) : Prop :=
  finished_first (recents self) = true /\
  StronglySorted Qle (finished_epochs (recents self) ++ future).

(** ** RateLimitManager *)

Record RateLimitManager : Type := mkManager {
  request_limit : RateLimit;
  error_limit : RateLimit
}.

Definition RateLimitManager_init : RateLimitManager :=
  mkManager (RateLimit_init 30 1) (RateLimit_init 300 180).

Inductive gate : Type := RequestLimit | ErrorLimit.

(** How a segment of [block_until_can_start_new_request] ends: it returns the
    elapsed time, or the thread is blocked in the [wait] of one of the two
    limiters (remembering its [start]), or a [reserve] raised; [Unfinished]
    when the fuel of a [reserve] ran out. *)
Inductive admission : Type :=
| Entered (elapsed : Q) (now : Q) (m : RateLimitManager)
| Blocked (g : gate) (start : Q) (now : Q) (m : RateLimitManager)
| Failed (g : gate) (e : exn) (now : Q) (m : RateLimitManager)
| Unfinished (g : gate) (now : Q) (m : RateLimitManager).

(** [self.error_limit.reserve()] and [return time.time() - start], given how
    the segment of the error limiter's [reserve] ended. *)
Definition after_error_limit (start : Q) (m : RateLimitManager) (o : outcome)
  : admission :=
  match o with
  | Returned now e _ => Entered (now - start) now (mkManager (request_limit m) e)
  | Parked now e _ => Blocked ErrorLimit start now (mkManager (request_limit m) e)
  | Raised x now e _ => Failed ErrorLimit x now (mkManager (request_limit m) e)
  | OutOfFuel now e _ => Unfinished ErrorLimit now (mkManager (request_limit m) e)
  end.

(** The rest of the call, given how the segment of the request limiter's
    [reserve] ended. *)
Definition after_request_limit (start : Q) (m : RateLimitManager) (o : outcome)
  : admission :=
  match o with
  | Returned now r _ =>
      let m' := mkManager r (error_limit m) in
      after_error_limit start m' (reserve now (error_limit m'))
  | Parked now r _ => Blocked RequestLimit start now (mkManager r (error_limit m))
  | Raised x now r _ => Failed RequestLimit x now (mkManager r (error_limit m))
  | OutOfFuel now r _ => Unfinished RequestLimit now (mkManager r (error_limit m))
  end.

Definition block_until_can_start_new_request (now : Q) (m : RateLimitManager)
  : admission :=
  let start := now in
  after_request_limit start m (reserve now (request_limit m)).

(** A thread blocked in the [wait] of limiter [g] gets the lock back at [now]. *)
Definition admission_resume (g : gate) (start now : Q) (m : RateLimitManager)
  : admission :=
  match g with
  | RequestLimit =>
      after_request_limit start m (reserve_resume now (request_limit m))
  | ErrorLimit =>
      after_error_limit start m (reserve_resume now (error_limit m))
  end.

(** Lines 91 and 92 of [finished], for the [ts_finished] read at line 90. *)
Definition finished_with (ts_finished : Q) (success : bool) (m : RateLimitManager)
  : result RateLimitManager :=
  match release ts_finished false (request_limit m) with
  | Ok r =>
      match release ts_finished success (error_limit m) with
      | Ok e => Ok (mkManager r e)
      | Raise x e => Raise x (mkManager r e)
      end
  | Raise x r => Raise x (mkManager r (error_limit m))
  end.

(** [finished] run without interruption at time [now]. *)
Definition finished (now : Q) (success : bool) (m : RateLimitManager)
  : result RateLimitManager :=
  let ts_finished := now in
  finished_with ts_finished success m.

(** ** One manager shared by threads *)

(** The manager with its clock and its threads.  [blocked] holds the threads
    inside a [wait] that no [notify] has picked yet, with the limiter they
    wait on and their [start]; [runnable] those a [notify] has picked;
    [stamped] the [ts_finished] of the threads that are inside [finished],
    past the clock read and before the releases.  [waits] keeps the values
    returned by [block_until_can_start_new_request] and [failures] the
    exceptions that left it, oldest first. *)
Record traffic : Type := mkTraffic {
  wall : Q;
  manager : RateLimitManager;
  blocked : list (gate * Q);
  runnable : list (gate * Q);
  stamped : list Q;
  waits : list Q;
  failures : list (gate * exn)
}.

Definition traffic_init : traffic :=
  mkTraffic 0 RateLimitManager_init [] [] [] [] [].

Inductive request : Type :=
| Enter                     (* a thread calls [block_until_can_start_new_request] *)
| Resume                    (* the first notified waiter gets its lock back *)
| Stamp                     (* a thread enters [finished] and reads the clock *)
| Complete (success : bool) (* the first stamped thread does its two releases *)
| Pass (d : Q).             (* time passes *)

Definition same_gate (g1 g2 : gate) : bool :=
  match g1, g2 with
  | RequestLimit, RequestLimit | ErrorLimit, ErrorLimit => true
  | _, _ => false
  end.

(** The first thread of [l] that waits on [g], and the others. *)
Fixpoint pick (g : gate) (l : list (gate * Q))
  : option ((gate * Q) * list (gate * Q)) :=
  match l with
  | [] => None
  | t :: l' =>
      if same_gate g (fst t) then Some (t, l')
      else match pick g l' with
           | Some (t', rest) => Some (t', t :: rest)
           | None => None
           end
  end.

(** [notify] on the condition variable of limiter [g]. *)
Definition notify_gate (g : gate) (w : traffic) : traffic :=
  match pick g (blocked w) with
  | Some (t, rest) =>
      mkTraffic (wall w) (manager w) rest (runnable w ++ [t]) (stamped w)
                (waits w) (failures w)
  | None => w
  end.

(** The state after a segment of an admission that started in [w]. *)
Definition settle (w : traffic) (a : admission) : traffic :=
  match a with
  | Entered elapsed now m =>
      mkTraffic now m (blocked w) (runnable w) (stamped w)
                (waits w ++ [elapsed]) (failures w)
  | Blocked g start now m =>
      mkTraffic now m (blocked w ++ [(g, start)]) (runnable w) (stamped w)
                (waits w) (failures w)
  | Failed g e now m =>
      mkTraffic now m (blocked w) (runnable w) (stamped w)
                (waits w) (failures w ++ [(g, e)])
  | Unfinished g now m =>
      mkTraffic now m (blocked w) (runnable w) (stamped w) (waits w) (failures w)
  end.

Definition serve (w : traffic) (c : request) : traffic :=
  match c with
  | Enter => settle w (block_until_can_start_new_request (wall w) (manager w))
  | Resume =>
      match runnable w with
      | [] => w
      | (g, start) :: rest =>
          settle (mkTraffic (wall w) (manager w) (blocked w) rest (stamped w)
                            (waits w) (failures w))
                 (admission_resume g start (wall w) (manager w))
      end
  | Stamp =>
      mkTraffic (wall w) (manager w) (blocked w) (runnable w)
                (stamped w ++ [wall w]) (waits w) (failures w)
  | Complete success =>
      match stamped w with
      | [] => w
      | ts_finished :: rest =>
          (* the request limiter's release never raises and notifies; the
             error limiter's notifies unless its [remove] raised *)
          match finished_with ts_finished success (manager w) with
          | Ok m =>
              notify_gate ErrorLimit
                (notify_gate RequestLimit
                   (mkTraffic (wall w) m (blocked w) (runnable w) rest
                              (waits w) (failures w)))
          | Raise _ m =>
              notify_gate RequestLimit
                (mkTraffic (wall w) m (blocked w) (runnable w) rest
                           (waits w) (failures w))
          end
      end
  | Pass d =>
      if Qle_bool 0 d
      then mkTraffic (wall w + d) (manager w) (blocked w) (runnable w)
                     (stamped w) (waits w) (failures w)
      else w
  end.

Definition serve_all (w : traffic) (calls : list request) : traffic :=
  fold_left serve calls w.

Definition is_raised (o : outcome) : bool :=
  match o with Raised _ _ _ _ => true | _ => false end.

(** The front record, if finished, is still inside the window at [now]. *)
Definition front_fresh (now : Q) (self : RateLimit) : Prop :=
  match recents self with
  | Some epoch :: _ => now - window self <= epoch
  | _ => True
  end.

(** A schedule of one limiter of limit 1 and window 1: the slot is taken, a
    second [reserve] blocks in [wait], the slot is released with the current
    time 0 as its timestamp, and the waiter gets the lock back 5 seconds
    later. *)
Definition late_wakeup : list call :=
  [Reserve; Reserve; Release 0 false; Tick 5; Wake].

(** A schedule of one limiter of limit 2 and window 1 in which every delay
    comes from the lock.  Two slots are taken at time 0 and the first is
    released at once.  The holder of the second reads the clock at 0.0004
    for its [ts_finished]; before it gets the lock a [reserve] enters at
    0.0005, finds the limiter full and sleeps, lock held, until 1.001, where
    it takes the slot that expired.  The next [reserve] finds two pending
    slots and blocks in [wait].  Now the delayed release goes through with
    0.0004 and notifies the waiter, which runs one millisecond later. *)
Definition stale_release : list call :=
  [Reserve; Reserve; Release 0 false; Tick (5 # 10000); Reserve; Reserve;
   Release (4 # 10000) false; Tick (1 # 1000); Wake].

(** A schedule of the manager.  Thirty calls are let through at time 0 and one
    of them finishes at once.  A second one reads its [ts_finished] at
    0.0004; before it takes the request limiter's lock a thread enters at
    0.0005, finds the limiter full and sleeps, lock held, until 1.001, where
    it takes the slot that expired.  The next thread finds thirty pending
    slots and blocks in [wait].  Now the stamped thread releases with its
    timestamp 0.0004 and notifies the waiter, which runs one millisecond
    later. *)
Definition race : list request :=
  repeat Enter 30 ++
  [Stamp; Complete false; Pass (4 # 10000); Stamp; Pass (1 # 10000);
   Enter; Enter; Complete false; Pass (1 # 1000); Resume].

(** ** Notions used by the further properties *)

(** What a segment of [reserve] has appended to the queue. *)
Definition appended (o : outcome) : deque :=
  match o with Returned _ _ _ => [None] | _ => [] end.

(** The segment that ended in [o] took from the queue of [self] nothing but a
    prefix [gone] of finished records older than the window at the time the
    segment ended, and left limit and window alone. *)
Definition trims (self : RateLimit) (o : outcome) : Prop :=
  exists gone kept,
    recents self = gone ++ kept /\
    Forall (old (outcome_clock o - window self)) gone /\
    recents (outcome_limiter o) = kept ++ appended o /\
    limit (outcome_limiter o) = limit self /\
    window (outcome_limiter o) = window self.

(** The number of pending records. *)
Definition pending_count (d : deque) : nat := length (filter is_pending d).

(** One thread using the limiter on its own: it lets [pause] pass, reserves,
    and releases with the timestamp [stamp], counting or not. *)
Record round : Type := mkRound {
  pause : Q;
  stamp : Q;
  uncounted : bool
}.

Definition rounds (l : list round) : list call :=
  flat_map (fun r => [Tick (pause r); Reserve; Release (stamp r) (uncounted r)]) l.

(** A limiter of limit [lim] and window [win] whose queue is within the
    limit and has its finished records first. *)
Definition sound (lim : nat) (win : Q) (self : RateLimit) : Prop :=
  within lim self /\ window self = win /\ finished_first (recents self) = true.

(** The exception that left a segment of [reserve], if one did. *)
Definition raised_exn (o : outcome) : option exn :=
  match o with Raised e _ _ _ => Some e | _ => None end.

(** A thread recorded as waiting: it waits on the request limiter and did
    not start after the present time [now]. *)
Definition waits_on_request (now : Q) (t : gate * Q) : Prop :=
  fst t = RequestLimit /\ snd t <= now.

(** What holds of the manager and its threads in every state reached from
    [traffic_init] by the steps of [serve], which run the two reserves of an
    admission, and the two releases of a completion, without another thread
    in between. *)
Record steady (w : traffic) : Prop := mkSteady {
  steady_request : sound 30 1 (request_limit (manager w));
  steady_error : sound 300 180 (error_limit (manager w));
  steady_pending :
    pending_count (recents (request_limit (manager w))) =
    pending_count (recents (error_limit (manager w)));
  steady_blocked : Forall (waits_on_request (wall w)) (blocked w);
  steady_runnable : Forall (waits_on_request (wall w)) (runnable w);
  steady_waiters :
    recents (request_limit (manager w)) = [] ->
    blocked w = [] /\ runnable w = [];
  steady_failures :
    Forall (fun f => f = (RequestLimit, ValueError)) (failures w);
  steady_waits : Forall (Qle 0) (waits w)
}.

(** * Properties *)

(** ** Comparisons *)

Lemma Qlt_bool_iff (x y : Q) : Qlt_bool x y = true <-> x < y.
Proof.
  unfold Qlt_bool. rewrite negb_true_iff.
  split; intros H.
  - apply Qnot_le_lt. intros Hle. apply Qle_bool_iff in Hle. congruence.
  - destruct (Qle_bool y x) eqn:E; [|reflexivity].
    apply Qle_bool_iff in E. exfalso. apply (Qlt_not_le _ _ H E).
Qed.

Lemma Qlt_bool_false_iff (x y : Q) : Qlt_bool x y = false <-> y <= x.
Proof.
  unfold Qlt_bool. rewrite negb_false_iff. apply Qle_bool_iff.
Qed.

Example ex_reserve_1 :
  reserve 0 (mkRateLimit 2 1 [Some 0; Some 0]) =
  Returned (0 + (0 + 1 - 0 + margin)) (mkRateLimit 2 1 [None]) [0 + 1 - 0 + margin].
Proof. reflexivity. Qed.

(** ** Records *)

Lemma recents_set_recents (self : RateLimit) (d : deque) :
  recents (set_recents self d) = d.
Proof. reflexivity. Qed.

Lemma set_recents_same (self : RateLimit) : set_recents self (recents self) = self.
Proof. destruct self; reflexivity. Qed.

(** ** [__forget_old] *)

Section Forget.
Variable threshold : Q.

Lemma popleft_while_old_split (d : deque) :
  exists gone, d = gone ++ popleft_while_old threshold d /\ Forall (old threshold) gone.
Proof.
  induction d as [|[epoch|] d IH]; simpl.
  - exists []; split; [reflexivity | constructor].
  - destruct (Qlt_bool epoch threshold) eqn:E.
    + destruct IH as [gone [Hd Hall]].
      exists (Some epoch :: gone); split.
      * simpl; congruence.
      * constructor; [|assumption].
        exists epoch; split; [reflexivity | now apply Qlt_bool_iff].
    + exists []; split; [reflexivity | constructor].
  - exists []; split; [reflexivity | constructor].
Qed.

Lemma popleft_while_old_stops (d : deque) :
  match popleft_while_old threshold d with
  | Some epoch :: _ => threshold <= epoch
  | _ => True
  end.
Proof.
  induction d as [|[epoch|] d IH]; simpl; trivial.
  destruct (Qlt_bool epoch threshold) eqn:E; [assumption|].
  now apply Qlt_bool_false_iff.
Qed.

Lemma popleft_while_old_length (d : deque) :
  (length (popleft_while_old threshold d) <= length d)%nat.
Proof.
  destruct (popleft_while_old_split d) as [gone [Hd _]].
  rewrite Hd at 2. rewrite length_app. lia.
Qed.

Lemma popleft_while_old_app (gone d : deque) :
  Forall (old threshold) gone ->
  popleft_while_old threshold (gone ++ d) = popleft_while_old threshold d.
Proof.
  induction 1 as [|r gone [epoch [-> Hlt]] _ IH]; simpl; [reflexivity|].
  apply Qlt_bool_iff in Hlt. now rewrite Hlt.
Qed.

Lemma popleft_while_old_keeps (d : deque) :
  match d with
  | Some epoch :: _ => threshold <= epoch
  | _ => True
  end ->
  popleft_while_old threshold d = d.
Proof.
  destruct d as [|[epoch|] d]; simpl; trivial.
  intros H. apply Qlt_bool_false_iff in H. now rewrite H.
Qed.
End Forget.

(** C2: [__forget_old] run at time [now] removes a prefix of the queue made of
    finished records whose timestamp is strictly below [now - window], and
    stops at an empty queue, at a pending record or at a finished record
    whose timestamp is at least [now - window]; the rest of the queue, the
    limit and the window are left as they were. *)
Theorem forget_old_removes_expired_prefix (now : Q) (self : RateLimit) :
  exists gone,
    recents self = gone ++ recents (forget_old now self) /\
    Forall (old (now - window self)) gone /\
    match recents (forget_old now self) with
    | [] => True
    | None :: _ => True
    | Some epoch :: _ => now - window self <= epoch
    end /\
    limit (forget_old now self) = limit self /\
    window (forget_old now self) = window self.
Proof.
  unfold forget_old; simpl.
  destruct (popleft_while_old_split (now - window self) (recents self))
    as [gone [Hd Hall]].
  exists gone. repeat split; try assumption.
  pose proof (popleft_while_old_stops (now - window self) (recents self)) as Hs.
  destruct (popleft_while_old (now - window self) (recents self)) as [|[epoch|] d];
    trivial.
Qed.

(** ** [release] *)

Lemma pending_split (d : deque) :
  In None d -> exists done rest, d = done ++ None :: rest /\ ~ In None done.
Proof.
  induction d as [|[epoch|] d IH]; simpl; intros H.
  - contradiction.
  - destruct H as [H|H]; [discriminate|].
    destruct (IH H) as [done [rest [-> Hn]]].
    exists (Some epoch :: done), rest; split; [reflexivity|].
    simpl; intros [E|E]; [discriminate | auto].
  - exists [], d; split; [reflexivity | auto].
Qed.

Lemma fill_leftmost_pending_app (ts : Q) (done rest : deque) :
  ~ In None done ->
  fill_leftmost_pending ts (done ++ None :: rest) = done ++ Some ts :: rest.
Proof.
  induction done as [|[epoch|] done IH]; simpl; intros H.
  - reflexivity.
  - rewrite IH; auto.
  - exfalso; auto.
Qed.

Lemma deque_remove_None_app (done rest : deque) :
  ~ In None done ->
  deque_remove_None (done ++ None :: rest) = Some (done ++ rest).
Proof.
  induction done as [|[epoch|] done IH]; simpl; intros H.
  - reflexivity.
  - rewrite IH; auto.
  - exfalso; auto.
Qed.

Lemma fill_leftmost_pending_none (ts : Q) (d : deque) :
  ~ In None d -> fill_leftmost_pending ts d = d.
Proof.
  induction d as [|[epoch|] d IH]; simpl; intros H.
  - reflexivity.
  - rewrite IH; auto.
  - exfalso; auto.
Qed.

Lemma deque_remove_None_none (d : deque) :
  ~ In None d -> deque_remove_None d = None.
Proof.
  induction d as [|[epoch|] d IH]; simpl; intros H.
  - reflexivity.
  - rewrite IH; auto.
  - exfalso; auto.
Qed.

(** C3: when the queue holds a pending record, [release ts False] writes [ts]
    into the leftmost pending record and changes nothing else, and
    [release ts True] removes one pending record (the leftmost) and changes
    nothing else. *)
Theorem release_completes_or_removes_leftmost_pending
    (ts : Q) (self : RateLimit) :
  In None (recents self) ->
  exists done rest,
    recents self = done ++ None :: rest /\
    ~ In None done /\
    release ts false self = Ok (set_recents self (done ++ Some ts :: rest)) /\
    release ts true self = Ok (set_recents self (done ++ rest)).
Proof.
  intros H. destruct (pending_split _ H) as [done [rest [Hd Hn]]].
  exists done, rest. unfold release. rewrite Hd.
  rewrite fill_leftmost_pending_app, deque_remove_None_app by assumption.
  auto.
Qed.

Lemma release_completes_or_removes_leftmost_pending_witness :
  exists done rest,
    [Some 3; None; None] = done ++ None :: rest /\
    ~ In None done /\
    release 7 false (mkRateLimit 3 1 [Some 3; None; None]) =
      Ok (mkRateLimit 3 1 (done ++ Some 7 :: rest)) /\
    release 7 true (mkRateLimit 3 1 [Some 3; None; None]) =
      Ok (mkRateLimit 3 1 (done ++ rest)).
Proof.
  apply (release_completes_or_removes_leftmost_pending 7
           (mkRateLimit 3 1 [Some 3; None; None])).
  simpl. right; left; reflexivity.
Defined.

(** C10, as stated, fails: on an empty queue [release 0 False] returns
    normally, the queue unchanged, with nothing raised. *)
Lemma release_without_pending_is_silent :
  ~ (forall ts does_not_count self,
        ~ In None (recents self) ->
        exists self', release ts does_not_count self = Raise ValueError self').
Proof.
  intros H.
  destruct (H 0 false (RateLimit_init 1 1)) as [self' E].
  - simpl; auto.
  - discriminate.
Qed.

(** C10, amended: in a state whose queue holds no pending record,
    [release ts True] raises [ValueError] and changes nothing: the limiter,
    the clock and the waiters are as before, [notify] is not reached and
    nobody is woken.  [release ts False] returns normally with the limiter
    unchanged and nothing raised, and goes on to [notify] as after any
    release. *)
Theorem release_without_pending (ts : Q) (w : world) :
  ~ In None (recents (bucket w)) ->
  release ts true (bucket w) = Raise ValueError (bucket w) /\
  release ts false (bucket w) = Ok (bucket w) /\
  step w (Release ts true) =
    mkWorld (clock w) (bucket w) (parked w) (woken w) (sleeps w)
            (raised w ++ [ValueError]) /\
  step w (Release ts false) = notify w /\
  bucket (step w (Release ts false)) = bucket w /\
  raised (step w (Release ts false)) = raised w.
Proof.
  intros H.
  assert (E1 : release ts true (bucket w) = Raise ValueError (bucket w)).
  { unfold release. now rewrite deque_remove_None_none. }
  assert (E2 : release ts false (bucket w) = Ok (bucket w)).
  { unfold release. rewrite fill_leftmost_pending_none by assumption.
    now rewrite set_recents_same. }
  assert (E3 : step w (Release ts false) = notify w).
  { cbn [step]. rewrite E2. now destruct w. }
  split; [exact E1|]. split; [exact E2|]. split.
  - cbn [step]. now rewrite E1.
  - split; [exact E3|]. rewrite E3. unfold notify.
    destruct (parked w); split; reflexivity.
Qed.

Lemma release_without_pending_witness :
  let w := mkWorld 5 (mkRateLimit 2 1 [Some 4]) 1 0 [] [] in
  release 5 true (bucket w) = Raise ValueError (bucket w) /\
  release 5 false (bucket w) = Ok (bucket w) /\
  step w (Release 5 true) =
    mkWorld (clock w) (bucket w) (parked w) (woken w) (sleeps w)
            (raised w ++ [ValueError]) /\
  step w (Release 5 false) = notify w /\
  bucket (step w (Release 5 false)) = bucket w /\
  raised (step w (Release 5 false)) = raised w.
Proof.
  apply (release_without_pending 5
           (mkWorld 5 (mkRateLimit 2 1 [Some 4]) 1 0 [] [])).
  simpl. intros [H|[]]. discriminate.
Defined.

(** ** [reserve] *)

Arguments forget_old : simpl never.
Arguments set_recents : simpl never.
Arguments deque_append : simpl never.

Lemma margin_pos : 0 < margin.
Proof. reflexivity. Qed.

(** After sleeping until [epoch + window + margin] the front record [epoch]
    is forgotten. *)
Lemma front_forgotten_after_sleep (now : Q) (self : RateLimit) (epoch : Q) (d : deque) :
  recents self = Some epoch :: d ->
  recents (forget_old (now + (epoch + window self - now + margin)) self) =
  popleft_while_old (now + (epoch + window self - now + margin) - window self) d.
Proof.
  intros E. unfold forget_old; simpl. rewrite E; simpl.
  assert (H : Qlt_bool epoch
                (now + (epoch + window self - now + margin) - window self) = true).
  { apply Qlt_bool_iff. pose proof margin_pos. lra. }
  now rewrite H.
Qed.

(** One pass through the body of the outer loop, spelled out. *)
Lemma reserve_inner_eq (fuel : nat) (now : Q) (self : RateLimit) (slept : list Q) :
  reserve_inner fuel now self slept =
  match recents self with
  | [] => Raised IndexError now self slept
  | None :: _ => Parked now self slept
  | Some epoch :: _ =>
      let d := epoch + window self - now + margin in
      let self' := forget_old (now + d) self in
      if Qlt_bool d 0 then Raised ValueError now self (slept ++ [d])
      else if length (recents self') =? limit self' then
        match fuel with
        | O => OutOfFuel (now + d) self' (slept ++ [d])
        | S fuel' => reserve_inner fuel' (now + d) self' (slept ++ [d])
        end
      else
        Returned (now + d)
          (set_recents self' (deque_append (limit self') (recents self') None))
          (slept ++ [d])
  end.
Proof. destruct fuel; reflexivity. Qed.

(** The fuel [reserve] and [reserve_resume] give is enough: the loop ends. *)
Lemma reserve_inner_total (fuel : nat) :
  forall now self slept,
    (length (recents self) <= fuel)%nat ->
    out_of_fuel (reserve_inner fuel now self slept) = false.
Proof.
  induction fuel as [|fuel IH]; intros now self slept Hlen;
    rewrite reserve_inner_eq;
    destruct (recents self) as [|[epoch|] d] eqn:E; try reflexivity;
    simpl in Hlen; try lia.
  cbv zeta. destruct (Qlt_bool _ 0); [reflexivity|].
  destruct (_ =? _); [|reflexivity].
  apply IH. rewrite (front_forgotten_after_sleep now self epoch d E).
  pose proof (popleft_while_old_length
                (now + (epoch + window self - now + margin) - window self) d).
  lia.
Qed.

Lemma reserve_resume_total (now : Q) (self : RateLimit) :
  out_of_fuel (reserve_resume now self) = false.
Proof. apply reserve_inner_total. lia. Qed.

Lemma reserve_total (now : Q) (self : RateLimit) :
  out_of_fuel (reserve now self) = false.
Proof.
  unfold reserve, reserve_fuel, reserve_outer.
  destruct (_ =? _); [|reflexivity].
  apply reserve_inner_total. unfold forget_old; simpl.
  apply popleft_while_old_length.
Qed.

(** A property of the limiter that forgetting and appending keep is kept by
    every segment of [reserve]. *)
Section ReservePreserves.
Variable P : RateLimit -> Prop.
Hypothesis P_forget : forall now self, P self -> P (forget_old now self).
Hypothesis P_append :
  forall self, P self -> length (recents self) <> limit self ->
    P (set_recents self (deque_append (limit self) (recents self) None)).

Lemma reserve_inner_preserves (fuel : nat) :
  forall now self slept,
    P self -> P (outcome_limiter (reserve_inner fuel now self slept)).
Proof.
  induction fuel as [|fuel IH]; intros now self slept HP;
    rewrite reserve_inner_eq;
    destruct (recents self) as [|[epoch|] d] eqn:E; trivial;
    cbv zeta; destruct (Qlt_bool _ 0); trivial;
    match goal with |- context [forget_old ?t self] =>
      pose proof (P_forget t self HP) as HP' end;
    destruct (_ =? _) eqn:L; cbn [outcome_limiter]; auto;
    (apply P_append; [assumption | now apply Nat.eqb_neq]).
Qed.

Lemma reserve_resume_preserves (now : Q) (self : RateLimit) :
  P self -> P (outcome_limiter (reserve_resume now self)).
Proof. apply reserve_inner_preserves. Qed.

Lemma reserve_preserves (now : Q) (self : RateLimit) :
  P self -> P (outcome_limiter (reserve now self)).
Proof.
  intros HP. unfold reserve, reserve_fuel, reserve_outer.
  pose proof (P_forget now self HP) as HP'.
  destruct (_ =? _) eqn:L.
  - now apply reserve_inner_preserves.
  - cbn [outcome_limiter]. apply P_append; [assumption | now apply Nat.eqb_neq].
Qed.
End ReservePreserves.

Lemma bucket_absorb (w : world) (o : outcome) :
  bucket (absorb w o) = outcome_limiter o.
Proof. destruct o; reflexivity. Qed.

Lemma bucket_notify (w : world) : bucket (notify w) = bucket w.
Proof. unfold notify. destruct (parked w); reflexivity. Qed.

Lemma bucket_step_release_ok (w : world) (ts : Q) (does_not_count : bool)
    (self' : RateLimit) :
  release ts does_not_count (bucket w) = Ok self' ->
  bucket (step w (Release ts does_not_count)) = self'.
Proof.
  intros E. cbn [step]. rewrite E. now rewrite bucket_notify.
Qed.

Lemma run_app (w : world) (calls1 calls2 : list call) :
  run w (calls1 ++ calls2) = run (run w calls1) calls2.
Proof. apply fold_left_app. Qed.

Lemma run_snoc (w : world) (calls : list call) (c : call) :
  run w (calls ++ [c]) = step (run w calls) c.
Proof. now rewrite run_app. Qed.

(** A property that every operation on the limiter keeps holds along every
    interleaving. *)
Section RunPreserves.
Variable P : RateLimit -> Prop.
Hypothesis P_forget : forall now self, P self -> P (forget_old now self).
Hypothesis P_append :
  forall self, P self -> length (recents self) <> limit self ->
    P (set_recents self (deque_append (limit self) (recents self) None)).
Hypothesis P_release :
  forall ts does_not_count self self',
    P self -> release ts does_not_count self = Ok self' -> P self'.

Lemma step_preserves (w : world) (c : call) :
  P (bucket w) -> P (bucket (step w c)).
Proof.
  intros HP. destruct c as [| |ts does_not_count|d]; simpl.
  - rewrite bucket_absorb. now apply reserve_preserves.
  - destruct (woken w); [assumption|].
    rewrite bucket_absorb. now apply reserve_resume_preserves.
  - destruct (release ts does_not_count (bucket w)) as [self|e self] eqn:E.
    + rewrite bucket_notify. simpl. eapply P_release; eassumption.
    + simpl. unfold release in E.
      destruct does_not_count; [|discriminate].
      destruct (deque_remove_None _); [discriminate|].
      now injection E as _ <-.
  - destruct (Qle_bool 0 d); assumption.
Qed.

Lemma run_preserves (calls : list call) :
  forall w, P (bucket w) -> P (bucket (run w calls)).
Proof.
  induction calls as [|c calls IH]; intros w HP; simpl; [assumption|].
  apply IH. now apply step_preserves.
Qed.
End RunPreserves.

(** ** The capacity bound *)

Lemma deque_append_room (maxlen : nat) (d : deque) (x : option Q) :
  (length d <= maxlen)%nat -> length d <> maxlen ->
  deque_append maxlen d x = d ++ [x].
Proof.
  intros Hle Hne. unfold deque_append.
  destruct (length d <? maxlen) eqn:L; [reflexivity|].
  apply Nat.ltb_ge in L. lia.
Qed.

Lemma deque_remove_None_length (d d' : deque) :
  deque_remove_None d = Some d' -> length d = S (length d').
Proof.
  revert d'. induction d as [|[epoch|] d IH]; simpl; intros d' H.
  - discriminate.
  - destruct (deque_remove_None d) as [r|]; [|discriminate].
    injection H as <-. simpl. now rewrite (IH r).
  - now injection H as <-.
Qed.

Lemma fill_leftmost_pending_length (ts : Q) (d : deque) :
  length (fill_leftmost_pending ts d) = length d.
Proof.
  induction d as [|[epoch|] d IH]; simpl; auto.
Qed.

Lemma within_forget (lim : nat) (now : Q) (self : RateLimit) :
  within lim self -> within lim (forget_old now self).
Proof.
  intros [Hl Hn]. split; [assumption|].
  unfold forget_old; simpl.
  pose proof (popleft_while_old_length (now - window self) (recents self)). lia.
Qed.

Lemma within_append (lim : nat) (self : RateLimit) :
  within lim self -> length (recents self) <> limit self ->
  within lim (set_recents self (deque_append (limit self) (recents self) None)).
Proof.
  intros [Hl Hn] Hne. split; [assumption|].
  unfold set_recents; simpl.
  rewrite deque_append_room by lia. rewrite length_app; simpl. lia.
Qed.

Lemma within_release (lim : nat) (ts : Q) (does_not_count : bool)
    (self self' : RateLimit) :
  within lim self -> release ts does_not_count self = Ok self' -> within lim self'.
Proof.
  intros [Hl Hn] E. unfold release in E. destruct does_not_count.
  - destruct (deque_remove_None (recents self)) as [d|] eqn:R; [|discriminate].
    injection E as <-. split; [assumption|]. simpl.
    apply deque_remove_None_length in R. lia.
  - injection E as <-. split; [assumption|]. simpl.
    rewrite fill_leftmost_pending_length. assumption.
Qed.

Lemma append_with_room (lim : nat) (self : RateLimit) :
  within lim self -> length (recents self) <> limit self ->
  exists d,
    recents (set_recents self (deque_append (limit self) (recents self) None)) =
      d ++ [None] /\
    (length d < lim)%nat.
Proof.
  intros [Hl Hn] Hne. exists (recents self); split; [|lia].
  rewrite recents_set_recents. apply deque_append_room; lia.
Qed.

(** A segment of [reserve] that returns has appended the pending record to a
    queue with room left. *)
Lemma reserve_inner_returned (lim : nat) (fuel : nat) :
  forall now self slept now' self' slept',
    within lim self ->
    reserve_inner fuel now self slept = Returned now' self' slept' ->
    exists d, recents self' = d ++ [None] /\ (length d < lim)%nat.
Proof.
  induction fuel as [|fuel IH]; intros now self slept now' self' slept' HW;
    rewrite reserve_inner_eq;
    destruct (recents self) as [|[epoch|] d] eqn:E; try discriminate;
    cbv zeta; destruct (Qlt_bool _ 0); try discriminate;
    match goal with |- context [forget_old ?t self] =>
      pose proof (within_forget lim t self HW) as HW';
      pose proof (append_with_room lim (forget_old t self) HW') as HA
    end;
    destruct (_ =? _) eqn:L; try discriminate; intros R;
    try (apply Nat.eqb_neq in L; specialize (HA L);
         injection R as _ <- _; exact HA).
  eapply IH; [|exact R]. assumption.
Qed.

Lemma reserve_returned (lim : nat) (now : Q) (self : RateLimit)
    (now' : Q) (self' : RateLimit) (slept' : list Q) :
  within lim self ->
  reserve now self = Returned now' self' slept' ->
  exists d, recents self' = d ++ [None] /\ (length d < lim)%nat.
Proof.
  intros HW. unfold reserve, reserve_fuel, reserve_outer.
  pose proof (within_forget lim now self HW) as HW'.
  pose proof (append_with_room lim (forget_old now self) HW') as HA.
  destruct (_ =? _) eqn:L.
  - now apply reserve_inner_returned.
  - intros R. apply Nat.eqb_neq in L. specialize (HA L).
    injection R as _ <- _. exact HA.
Qed.

Lemma within_init (lim : nat) (window_secs : Q) :
  within lim (bucket (world_init lim window_secs)).
Proof. split; simpl; [reflexivity | lia]. Qed.

Lemma within_run (lim : nat) (window_secs : Q) (calls : list call) :
  within lim (bucket (run (world_init lim window_secs) calls)).
Proof.
  apply run_preserves.
  - apply within_forget.
  - apply within_append.
  - apply within_release.
  - apply within_init.
Qed.

(** ** The shape of the queue: finished records first *)

Lemma all_pending_snoc (d : deque) :
  forallb is_pending d = true -> d ++ [None] = None :: d.
Proof.
  induction d as [|[epoch|] d IH]; simpl; intros H.
  - reflexivity.
  - discriminate.
  - now rewrite IH.
Qed.

Lemma all_pending_finished_first (d : deque) :
  forallb is_pending d = true -> finished_first d = true.
Proof.
  destruct d as [|[epoch|] d]; simpl; auto. discriminate.
Qed.

Lemma all_pending_no_epochs (d : deque) :
  forallb is_pending d = true -> finished_epochs d = [].
Proof.
  induction d as [|[epoch|] d IH]; simpl; auto. discriminate.
Qed.

Lemma finished_first_suffix (gone d : deque) :
  finished_first (gone ++ d) = true -> finished_first d = true.
Proof.
  induction gone as [|[epoch|] gone IH]; simpl; auto.
  rewrite forallb_app. intros H. apply andb_true_iff in H.
  now apply all_pending_finished_first.
Qed.

Lemma finished_first_snoc (d : deque) :
  finished_first d = true -> finished_first (d ++ [None]) = true.
Proof.
  induction d as [|[epoch|] d IH]; simpl; auto.
  intros H. now rewrite forallb_app, H.
Qed.

Lemma finished_first_fill (ts : Q) (d : deque) :
  finished_first d = true -> finished_first (fill_leftmost_pending ts d) = true.
Proof.
  induction d as [|[epoch|] d IH]; simpl; auto.
  apply all_pending_finished_first.
Qed.

Lemma finished_first_remove (d d' : deque) :
  finished_first d = true -> deque_remove_None d = Some d' ->
  finished_first d' = true.
Proof.
  revert d'. induction d as [|[epoch|] d IH]; simpl; intros d' H R.
  - discriminate.
  - destruct (deque_remove_None d) as [r|]; [|discriminate].
    injection R as <-. simpl. now apply IH.
  - injection R as <-. now apply all_pending_finished_first.
Qed.

Lemma deque_remove_None_snoc (d : deque) :
  finished_first d = true -> deque_remove_None (d ++ [None]) = Some d.
Proof.
  induction d as [|[epoch|] d IH]; simpl; intros H.
  - reflexivity.
  - now rewrite IH.
  - now rewrite all_pending_snoc.
Qed.

Lemma shape_forget (now : Q) (self : RateLimit) :
  finished_first (recents self) = true ->
  finished_first (recents (forget_old now self)) = true.
Proof.
  unfold forget_old; rewrite recents_set_recents.
  destruct (popleft_while_old_split (now - window self) (recents self))
    as [gone [Hd _]].
  intros H. rewrite Hd in H. now apply finished_first_suffix in H.
Qed.

Lemma shape_append_raw (maxlen : nat) (d : deque) :
  finished_first d = true -> finished_first (deque_append maxlen d None) = true.
Proof.
  intros H. unfold deque_append.
  destruct (length d <? maxlen); [now apply finished_first_snoc|].
  destruct maxlen; [assumption|].
  apply finished_first_snoc.
  destruct d as [|r d]; [reflexivity|].
  now apply (finished_first_suffix [r] d).
Qed.

Lemma shape_release (ts : Q) (does_not_count : bool) (self self' : RateLimit) :
  finished_first (recents self) = true ->
  release ts does_not_count self = Ok self' ->
  finished_first (recents self') = true.
Proof.
  intros H E. unfold release in E. destruct does_not_count.
  - destruct (deque_remove_None (recents self)) as [d|] eqn:R; [|discriminate].
    injection E as <-. rewrite recents_set_recents.
    eapply finished_first_remove; eassumption.
  - injection E as <-. rewrite recents_set_recents.
    now apply finished_first_fill.
Qed.

Lemma shape_run (lim : nat) (window_secs : Q) (calls : list call) :
  finished_first (recents (bucket (run (world_init lim window_secs) calls))) = true.
Proof.
  apply (run_preserves (fun self => finished_first (recents self) = true)).
  - apply shape_forget.
  - intros self H _. rewrite recents_set_recents. now apply shape_append_raw.
  - apply shape_release.
  - reflexivity.
Qed.

(** ** Reserve, then a release that does not count *)

Lemma forget_old_nothing (now : Q) (self : RateLimit) :
  recents (forget_old now self) = recents self -> forget_old now self = self.
Proof.
  intros H. unfold forget_old in *. rewrite recents_set_recents in H.
  rewrite H. apply set_recents_same.
Qed.

(** C4: in a state reached from a fresh limiter where nothing expires at the
    current time and the queue is not at capacity, [reserve] returns at once
    without sleeping, having appended one pending record, and a following
    [release ts True] gives back exactly the limiter of before the
    reservation: same records in the same order with the same timestamps. *)
Theorem reserve_then_uncounted_release_restores
    (lim : nat) (window_secs : Q) (calls : list call) (ts : Q) :
  let w := run (world_init lim window_secs) calls in
  recents (forget_old (clock w) (bucket w)) = recents (bucket w) ->
  length (recents (bucket w)) <> lim ->
  exists self',
    reserve (clock w) (bucket w) = Returned (clock w) self' [] /\
    recents self' = recents (bucket w) ++ [None] /\
    release ts true self' = Ok (bucket w) /\
    bucket (run w [Reserve; Release ts true]) = bucket w.
Proof.
  intros w Hforget Hroom.
  pose proof (within_run lim window_secs calls) as [Hl Hn]. fold w in Hl, Hn.
  pose proof (shape_run lim window_secs calls) as Hshape. fold w in Hshape.
  apply forget_old_nothing in Hforget.
  assert (R : reserve (clock w) (bucket w) =
              Returned (clock w)
                (set_recents (bucket w) (recents (bucket w) ++ [None])) []).
  { unfold reserve, reserve_fuel, reserve_outer. rewrite Hforget.
    destruct (_ =? _) eqn:L; [apply Nat.eqb_eq in L; lia|].
    now rewrite deque_append_room by lia. }
  assert (E : release ts true
                (set_recents (bucket w) (recents (bucket w) ++ [None])) =
              Ok (bucket w)).
  { unfold release. rewrite recents_set_recents.
    rewrite deque_remove_None_snoc by assumption.
    f_equal. destruct (bucket w); reflexivity. }
  exists (set_recents (bucket w) (recents (bucket w) ++ [None])).
  repeat split; try assumption.
  change (run w [Reserve; Release ts true])
    with (step (step w Reserve) (Release ts true)).
  apply bucket_step_release_ok.
  change (step w Reserve) with (absorb w (reserve (clock w) (bucket w))).
  rewrite R. exact E.
Qed.

Lemma reserve_then_uncounted_release_restores_witness :
  let w := run (world_init 3 1) [Reserve; Reserve; Release 0 false] in
  exists self',
    reserve (clock w) (bucket w) = Returned (clock w) self' [] /\
    recents self' = recents (bucket w) ++ [None] /\
    release 9 true self' = Ok (bucket w) /\
    bucket (run w [Reserve; Release 9 true]) = bucket w.
Proof.
  apply (reserve_then_uncounted_release_restores 3 1
           [Reserve; Reserve; Release 0 false] 9).
  - reflexivity.
  - simpl. lia.
Defined.

(** ** The order of the finished timestamps *)

Lemma Qle_transitive : Relations_1.Transitive Qle.
Proof. intros x y z. apply Qle_trans. Qed.

Lemma finished_epochs_app (d1 d2 : deque) :
  finished_epochs (d1 ++ d2) = finished_epochs d1 ++ finished_epochs d2.
Proof.
  induction d1 as [|[epoch|] d1 IH]; simpl; auto. now rewrite IH.
Qed.

Lemma finished_epochs_fill (ts : Q) (d : deque) :
  finished_first d = true ->
  finished_epochs (fill_leftmost_pending ts d) =
  finished_epochs d ++ (if existsb is_pending d then [ts] else []).
Proof.
  induction d as [|[epoch|] d IH]; simpl; intros H.
  - reflexivity.
  - now rewrite IH.
  - now rewrite (all_pending_no_epochs d H).
Qed.

Lemma finished_epochs_remove (d d' : deque) :
  deque_remove_None d = Some d' -> finished_epochs d' = finished_epochs d.
Proof.
  revert d'. induction d as [|[epoch|] d IH]; simpl; intros d' R.
  - discriminate.
  - destruct (deque_remove_None d) as [r|]; [|discriminate].
    injection R as <-. simpl. now rewrite (IH r).
  - now injection R as <-.
Qed.

Section StronglySorted_facts.
Context {A : Type} (R : A -> A -> Prop).

Lemma StronglySorted_suffix (l1 l2 : list A) :
  StronglySorted R (l1 ++ l2) -> StronglySorted R l2.
Proof.
  induction l1 as [|x l1 IH]; simpl; [auto|].
  intros H. apply IH. now inversion H.
Qed.

Lemma StronglySorted_drop (l1 : list A) (x : A) (l2 : list A) :
  StronglySorted R (l1 ++ x :: l2) -> StronglySorted R (l1 ++ l2).
Proof.
  induction l1 as [|y l1 IH]; simpl; intros H.
  - now inversion H.
  - inversion H as [|? ? Hs Hall]; subst. constructor; [now apply IH|].
    apply Forall_app in Hall as [H1 H2]. apply Forall_app; split; [assumption|].
    now inversion H2.
Qed.

Lemma StronglySorted_prefix (l1 l2 : list A) :
  StronglySorted R (l1 ++ l2) -> StronglySorted R l1.
Proof.
  induction l1 as [|x l1 IH]; simpl; intros H; [constructor|].
  inversion H as [|? ? Hs Hall]; subst. constructor; [now apply IH|].
  now apply Forall_app in Hall as [H1 _].
Qed.
End StronglySorted_facts.

Lemma ordered_forget (future : list Q) (now : Q) (self : RateLimit) :
  ordered future self -> ordered future (forget_old now self).
Proof.
  intros [Hs Ho]. split; [now apply shape_forget|].
  unfold forget_old; rewrite recents_set_recents.
  destruct (popleft_while_old_split (now - window self) (recents self))
    as [gone [Hd _]].
  rewrite Hd, finished_epochs_app, <- app_assoc in Ho.
  now apply StronglySorted_suffix in Ho.
Qed.

Lemma finished_epochs_append (maxlen : nat) (d : deque) :
  exists gone, finished_epochs d = gone ++ finished_epochs (deque_append maxlen d None).
Proof.
  unfold deque_append. destruct (length d <? maxlen).
  - exists []. rewrite finished_epochs_app; simpl. now rewrite app_nil_r.
  - destruct maxlen; [now exists []|].
    destruct d as [|[epoch|] d]; simpl.
    + now exists [].
    + exists [epoch]. rewrite finished_epochs_app; simpl. now rewrite app_nil_r.
    + exists []. rewrite finished_epochs_app; simpl. now rewrite app_nil_r.
Qed.

Lemma ordered_append (future : list Q) (self : RateLimit) :
  ordered future self -> length (recents self) <> limit self ->
  ordered future
    (set_recents self (deque_append (limit self) (recents self) None)).
Proof.
  intros [Hs Ho] _. split; rewrite recents_set_recents.
  - now apply shape_append_raw.
  - destruct (finished_epochs_append (limit self) (recents self)) as [gone Hg].
    rewrite Hg, <- app_assoc in Ho. now apply StronglySorted_suffix in Ho.
Qed.

Lemma ordered_step (c : call) (calls : list call) (w : world) :
  ordered (release_stamps (c :: calls)) (bucket w) ->
  ordered (release_stamps calls) (bucket (step w c)).
Proof.
  intros HO. destruct c as [| |ts [|]|d]; cbn [release_stamps] in HO.
  - cbn [step]. rewrite bucket_absorb.
    apply reserve_preserves;
      auto using ordered_forget, ordered_append.
  - cbn [step]. destruct (woken w); [assumption|].
    rewrite bucket_absorb.
    apply reserve_resume_preserves;
      auto using ordered_forget, ordered_append.
  - cbn [step]. destruct HO as [Hs Ho].
    destruct (release ts true (bucket w)) as [self|e self] eqn:E.
    + rewrite bucket_notify. cbn [bucket]. split.
      * eapply shape_release; eassumption.
      * unfold release in E.
        destruct (deque_remove_None (recents (bucket w))) as [d'|] eqn:R;
          [|discriminate].
        injection E as <-. rewrite recents_set_recents.
        now rewrite (finished_epochs_remove _ _ R).
    + cbn [bucket]. unfold release in E.
      destruct (deque_remove_None (recents (bucket w))); [discriminate|].
      injection E as _ <-. now split.
  - rewrite (bucket_step_release_ok w ts false _ eq_refl).
    destruct HO as [Hs Ho]. split; rewrite recents_set_recents.
    + now apply finished_first_fill.
    + rewrite finished_epochs_fill by assumption.
      destruct (existsb is_pending (recents (bucket w))).
      * now rewrite <- app_assoc.
      * rewrite app_nil_r. now apply StronglySorted_drop in Ho.
  - cbn [step]. destruct (Qle_bool 0 d); assumption.
Qed.

Lemma ordered_run (calls : list call) :
  forall w,
    ordered (release_stamps calls) (bucket w) ->
    ordered [] (bucket (run w calls)).
Proof.
  induction calls as [|c calls IH]; intros w HO; [assumption|].
  apply IH. now apply ordered_step.
Qed.

(** C5, as stated, fails: two reservations released with the timestamps 5
    and then 3 leave the finished records in the order 5, 3. *)
Lemma finished_epochs_can_decrease :
  ~ (forall lim window_secs calls,
        Sorted Qle
          (finished_epochs
             (recents (bucket (run (world_init lim window_secs) calls))))).
Proof.
  intros H.
  specialize (H 2%nat 1 [Reserve; Reserve; Release 5 false; Release 3 false]).
  vm_compute in H.
  inversion H as [|? ? _ Hd]; subst.
  inversion Hd as [|? ? Hle]; subst.
  apply Hle. reflexivity.
Qed.

(** C5, amended: when the timestamps handed to the releases that record one
    are non-decreasing in call order, then in every state reached from a
    fresh limiter the finished records have non-decreasing timestamps in
    queue order. *)
Theorem finished_epochs_sorted
    (lim : nat) (window_secs : Q) (calls : list call) :
  Sorted Qle (release_stamps calls) ->
  Sorted Qle
    (finished_epochs (recents (bucket (run (world_init lim window_secs) calls)))).
Proof.
  intros H. apply StronglySorted_Sorted.
  assert (HO : ordered (release_stamps calls)
                 (bucket (world_init lim window_secs))).
  { split; [reflexivity|]. simpl.
    apply Sorted_StronglySorted; [apply Qle_transitive | assumption]. }
  apply ordered_run in HO. destruct HO as [_ HO].
  now rewrite app_nil_r in HO.
Qed.

Lemma finished_epochs_sorted_witness :
  Sorted Qle
    (finished_epochs
       (recents (bucket (run (world_init 2 1)
          [Reserve; Reserve; Release 3 false; Release 9 true; Reserve;
           Release 5 false])))).
Proof.
  apply (finished_epochs_sorted 2 1
           [Reserve; Reserve; Release 3 false; Release 9 true; Reserve;
            Release 5 false]).
  simpl. repeat constructor. discriminate.
Defined.

(** ** Waiting for the window *)

Lemma reserve_at_once (now : Q) (self : RateLimit) :
  recents (forget_old now self) = recents self ->
  (length (recents self) < limit self)%nat ->
  reserve now self = Returned now (set_recents self (recents self ++ [None])) [].
Proof.
  intros Hforget Hroom. apply forget_old_nothing in Hforget.
  unfold reserve, reserve_fuel, reserve_outer. rewrite Hforget.
  destruct (_ =? _) eqn:L; [apply Nat.eqb_eq in L; lia|].
  now rewrite deque_append_room by lia.
Qed.

Lemma popleft_while_old_all (threshold : Q) (d : deque) :
  Forall (old threshold) d -> popleft_while_old threshold d = [].
Proof.
  intros H. rewrite <- (app_nil_r d). now rewrite popleft_while_old_app.
Qed.

Lemma repeat_snoc {A : Type} (x : A) (n : nat) :
  repeat x n ++ [x] = repeat x (S n).
Proof. now rewrite <- repeat_cons. Qed.

Lemma no_pending_in_finished (ts : Q) (n : nat) : ~ In None (repeat (Some ts) n).
Proof. intros H. apply repeat_spec in H. discriminate. Qed.

Section FullWindow.
Variables (n : nat) (window_secs : Q).

(** [k] reservations in a row on the fresh limiter, [k <= n]. *)
Lemma run_reserves (k : nat) :
  (k <= n)%nat ->
  run (world_init n window_secs) (repeat Reserve k) =
  mkWorld 0 (mkRateLimit n window_secs (repeat None k)) 0 0 [] [].
Proof.
  induction k as [|k IH]; intros Hk; [reflexivity|].
  rewrite <- repeat_snoc, run_snoc, IH by lia.
  cbn [step clock bucket]. rewrite reserve_at_once.
  - cbn [absorb set_recents recents limit window parked woken sleeps raised app].
    now rewrite repeat_snoc.
  - unfold forget_old. rewrite recents_set_recents.
    apply popleft_while_old_keeps. now destruct k.
  - cbn [recents limit]. rewrite repeat_length. lia.
Qed.

(** Then [j] of them released with the timestamp 0, [j <= n]. *)
Lemma run_releases (j : nat) :
  (j <= n)%nat ->
  run (mkWorld 0 (mkRateLimit n window_secs (repeat None n)) 0 0 [] [])
      (repeat (Release 0 false) j) =
  mkWorld 0
    (mkRateLimit n window_secs (repeat (Some 0) j ++ repeat None (n - j))) 0 0 [] [].
Proof.
  induction j as [|j IH]; intros Hj.
  - cbn [repeat run fold_left app]. now rewrite Nat.sub_0_r.
  - rewrite <- repeat_snoc, run_snoc, IH by lia.
    cbn [step bucket release recents].
    replace (n - j)%nat with (S (n - S j)) by lia. cbn [repeat].
    rewrite fill_leftmost_pending_app by apply no_pending_in_finished.
    cbn [notify parked]. unfold set_recents. cbn [limit window].
    do 2 f_equal.
    change (Some 0 :: repeat None (n - S j))
      with ([Some 0] ++ repeat None (n - S j)).
    now rewrite app_assoc, repeat_snoc.
Qed.

Lemma run_fill_window :
  run (world_init n window_secs)
      (repeat Reserve n ++ repeat (Release 0 false) n) =
  mkWorld 0 (mkRateLimit n window_secs (repeat (Some 0) n)) 0 0 [] [].
Proof.
  rewrite run_app, run_reserves, run_releases by lia.
  rewrite Nat.sub_diag. cbn [repeat]. now rewrite app_nil_r.
Qed.

(** C8: on a limiter of limit [n > 0], after [n] reservations all released
    with the timestamp 0, a further [reserve] entered at time [t0] inside
    the window makes exactly one sleep, of length [window - t0 + margin],
    raises nothing, and returns at time [window + margin], that is after
    the oldest timestamp plus the window has passed and within the margin
    of it; all [n] records have then expired and the queue holds the new
    pending record only. *)
Theorem reserve_waits_for_window (t0 : Q) :
  (0 < n)%nat -> 0 <= t0 -> t0 <= window_secs ->
  let before :=
    run (world_init n window_secs)
        (repeat Reserve n ++ repeat (Release 0 false) n ++ [Tick t0]) in
  let after := step before Reserve in
  clock before == t0 /\
  recents (bucket before) = repeat (Some 0) n /\
  (exists d, sleeps after = [d] /\ d == window_secs - t0 + margin) /\
  raised after = [] /\
  parked after = 0%nat /\
  recents (bucket after) = [None] /\
  clock after == 0 + window_secs + margin /\
  0 + window_secs < clock after.
Proof.
  intros Hn H0 Ht before after.
  assert (Hb : before =
               mkWorld (0 + t0) (mkRateLimit n window_secs (repeat (Some 0) n))
                       0 0 [] []).
  { unfold before. rewrite app_assoc, run_snoc, run_fill_window.
    cbn [step clock bucket parked woken sleeps raised].
    apply Qle_bool_iff in H0. now rewrite H0. }
  assert (Hkeep : popleft_while_old (0 + t0 - window_secs) (repeat (Some 0) n) =
                  repeat (Some 0) n).
  { apply popleft_while_old_keeps. destruct n; [lia|]. cbn [repeat]. lra. }
  set (d := 0 + window_secs - (0 + t0) + margin).
  pose proof margin_pos as Hm.
  assert (Hgone : popleft_while_old (0 + t0 + d - window_secs) (repeat (Some 0) n) = []).
  { apply popleft_while_old_all. apply Forall_forall. intros r Hr.
    apply repeat_spec in Hr. exists 0. split; [assumption|]. unfold d. lra. }
  assert (Hr : reserve (0 + t0) (mkRateLimit n window_secs (repeat (Some 0) n)) =
               Returned (0 + t0 + d) (mkRateLimit n window_secs [None]) [d]).
  { unfold reserve, reserve_fuel, reserve_outer, forget_old.
    cbn [recents limit window]. rewrite Hkeep. unfold set_recents.
    cbn [recents limit window]. rewrite repeat_length, Nat.eqb_refl.
    rewrite reserve_inner_eq. cbn [recents limit window].
    destruct n as [|m] eqn:En; [lia|]. cbn [repeat]. cbv zeta.
    fold d.
    assert (Hd : Qlt_bool d 0 = false).
    { apply Qlt_bool_false_iff. unfold d. lra. }
    rewrite Hd. unfold forget_old. cbn [recents limit window].
    unfold set_recents. cbn [recents limit window].
    change (Some 0 :: repeat (Some 0) m) with (repeat (Some 0) (S m)).
    rewrite Hgone. reflexivity. }
  subst after. rewrite Hb. cbn [step clock bucket]. rewrite Hr.
  cbn [absorb clock bucket recents sleeps raised parked app].
  repeat split.
  - lra.
  - exists d. split; [reflexivity | unfold d; lra].
  - unfold d; lra.
  - unfold d; lra.
Qed.
End FullWindow.

Lemma reserve_waits_for_window_witness :
  let before :=
    run (world_init 2 1)
        (repeat Reserve 2 ++ repeat (Release 0 false) 2 ++ [Tick (1 # 10)]) in
  let after := step before Reserve in
  clock before == 1 # 10 /\
  recents (bucket before) = repeat (Some 0) 2 /\
  (exists d, sleeps after = [d] /\ d == 1 - (1 # 10) + margin) /\
  raised after = [] /\
  parked after = 0%nat /\
  recents (bucket after) = [None] /\
  clock after == 0 + 1 + margin /\
  0 + 1 < clock after.
Proof.
  apply (reserve_waits_for_window 2 1 (1 # 10)).
  - lia.
  - discriminate.
  - discriminate.
Defined.

(** ** The length of the sleep *)

(** A segment that starts with the front record still inside the window
    sleeps for at least the margin each time and raises nothing.  This is the
    case of a segment that follows [__forget_old] when no time passes between
    the clock read of [__forget_old] and the one that computes the wait, as
    the model has it; a thread stalled between the two for longer than the
    margin is in the case of [late_wakeup] instead. *)
Lemma reserve_inner_fresh (fuel : nat) :
  forall now self slept,
    (0 < limit self)%nat ->
    length (recents self) = limit self ->
    front_fresh now self ->
    Forall (Qle margin) slept ->
    is_raised (reserve_inner fuel now self slept) = false /\
    Forall (Qle margin) (outcome_slept (reserve_inner fuel now self slept)).
Proof.
  induction fuel as [|fuel IH]; intros now self slept Hpos Hfull Hfresh Hs;
    rewrite reserve_inner_eq; unfold front_fresh in Hfresh;
    destruct (recents self) as [|[epoch|] d] eqn:E;
    try (simpl in Hfull; lia); try (split; [reflexivity | assumption]);
    cbv zeta;
    assert (Hd : margin <= epoch + window self - now + margin) by lra;
    assert (Hd0 : Qlt_bool (epoch + window self - now + margin) 0 = false)
      by (apply Qlt_bool_false_iff; pose proof margin_pos; lra);
    rewrite Hd0;
    assert (Hs' : Forall (Qle margin)
                    (slept ++ [epoch + window self - now + margin]))
      by (apply Forall_app; split; [assumption | now constructor]);
    destruct (_ =? _) eqn:L; try (split; [reflexivity | assumption]).
  apply Nat.eqb_eq in L. apply IH; try assumption.
  unfold front_fresh, forget_old. rewrite recents_set_recents.
  apply popleft_while_old_stops.
Qed.

Lemma reserve_from_start_sleeps_margin (now : Q) (self : RateLimit) :
  (0 < limit self)%nat ->
  is_raised (reserve now self) = false /\
  Forall (Qle margin) (outcome_slept (reserve now self)).
Proof.
  intros Hpos. unfold reserve, reserve_fuel, reserve_outer.
  destruct (_ =? _) eqn:L; [|split; [reflexivity | constructor]].
  apply Nat.eqb_eq in L. apply reserve_inner_fresh; try assumption.
  - unfold front_fresh, forget_old. rewrite recents_set_recents.
    apply popleft_while_old_stops.
  - constructor.
Qed.

(** C9: the code at the failing schedules [late_wakeup] and [stale_release].
    In the first the waiter, back from [wait], finds the front record
    finished at 0, computes [0 + 1 - 5 + 1e-3] and hands this negative length
    to [time.sleep], which raises; no slot is reserved.  In the second the
    sleep of 1.0005 s of the third [reserve] is followed by the waiter's
    [0.0004 + 1 - 1.002 + 1e-3], negative again. *)
Theorem reserve_sleeps_negative_after_late_wakeup :
  let w := run (world_init 1 1) late_wakeup in
  let w' := run (world_init 2 1) stale_release in
  ((exists d, sleeps w = [d] /\ d == - (3999 # 1000) /\ d < 0) /\
   raised w = [ValueError] /\
   recents (bucket w) = [Some 0]) /\
  ((exists d1 d2,
       sleeps w' = [d1; d2] /\ d1 == 10005 # 10000 /\
       d2 == - (6 # 10000) /\ d2 < 0) /\
   raised w' = [ValueError] /\
   recents (bucket w') = [Some (4 # 10000); None]).
Proof.
  vm_compute. repeat split; try reflexivity.
  - eexists. repeat split; reflexivity.
  - do 2 eexists. repeat split; reflexivity.
Qed.

(** ** The manager: admission *)

(** The clock never runs backwards through a segment of [reserve]. *)
Lemma reserve_inner_clock (fuel : nat) :
  forall now self slept, now <= outcome_clock (reserve_inner fuel now self slept).
Proof.
  induction fuel as [|fuel IH]; intros now self slept;
    rewrite reserve_inner_eq;
    destruct (recents self) as [|[epoch|] d]; try apply Qle_refl;
    cbv zeta; destruct (Qlt_bool _ 0) eqn:D; try apply Qle_refl;
    apply Qlt_bool_false_iff in D;
    destruct (_ =? _); cbn [outcome_clock];
    try (apply Qle_trans with (2 := IH _ _ _));
    rewrite <- (Qplus_0_r now) at 1; apply Qplus_le_r; exact D.
Qed.

Lemma reserve_clock (now : Q) (self : RateLimit) :
  now <= outcome_clock (reserve now self).
Proof.
  unfold reserve, reserve_fuel, reserve_outer.
  destruct (_ =? _); [apply reserve_inner_clock | apply Qle_refl].
Qed.



(** Up to its first [wait], a call that is not stalled between its clock reads
    raises nothing. *)
Lemma first_segment_never_fails (now : Q) (m : RateLimitManager) :
  (0 < limit (request_limit m))%nat ->
  (0 < limit (error_limit m))%nat ->
  match block_until_can_start_new_request now m with
  | Entered _ _ _ | Blocked _ _ _ _ => True
  | Failed _ _ _ _ | Unfinished _ _ _ => False
  end.
Proof.
  intros Hr He.
  unfold block_until_can_start_new_request, after_request_limit.
  pose proof (reserve_from_start_sleeps_margin now (request_limit m) Hr) as [R1 _].
  pose proof (reserve_total now (request_limit m)) as T1.
  destruct (reserve now (request_limit m)) as [now1 r s1| | |];
    try discriminate; trivial.
  cbn [error_limit]. unfold after_error_limit.
  pose proof (reserve_from_start_sleeps_margin now1 (error_limit m) He) as [R2 _].
  pose proof (reserve_total now1 (error_limit m)) as T2.
  destruct (reserve now1 (error_limit m)); try discriminate; trivial.
Qed.

(** C6: the code at the failing schedule [race].  Thirty-one calls get
    through (the last after a wait of 1.0005 s); the call that blocked in
    the request limiter's [wait] is woken by a release whose timestamp 0.0004
    is already more than a window plus the margin old, hands a negative
    length to [time.sleep] and leaves
    [block_until_can_start_new_request] with [ValueError]. *)
Theorem admission_fails_after_late_wakeup :
  let w := serve_all traffic_init race in
  failures w = [(RequestLimit, ValueError)] /\
  length (waits w) = 31%nat /\
  blocked w = [] /\ runnable w = [] /\
  hd None (recents (request_limit (manager w))) = Some (4 # 10000).
Proof. vm_compute. repeat split; reflexivity. Qed.

(** ** The manager: completion *)

Lemma popleft_while_old_keeps_fresh (threshold ts : Q) (done rest : deque) :
  threshold <= ts ->
  exists kept,
    popleft_while_old threshold (done ++ Some ts :: rest) = kept ++ Some ts :: rest /\
    (length kept <= length done)%nat.
Proof.
  intros Hts. induction done as [|[epoch|] done IH]; simpl.
  - apply Qlt_bool_false_iff in Hts. rewrite Hts. exists []. split; [reflexivity | apply Nat.le_refl].
  - destruct (Qlt_bool epoch threshold).
    + destruct IH as [kept [Hk Hl]]. exists kept. split; [assumption | simpl; lia].
    + exists (Some epoch :: done). split; [reflexivity | simpl; lia].
  - exists (None :: done). split; [reflexivity | simpl; lia].
Qed.

(** C7: with a pending record in both limiters, [finished] at time [now]
    writes [now] into the leftmost pending record of the request limiter; on
    the error limiter it removes the leftmost pending record when [success]
    is true, whatever the time, and writes [now] into it when [success] is
    false.  The record of a failure is not forgotten at any time [later]
    with [later - window <= now], and is forgotten, with the records before
    it, once these and it are older than [later - window]. *)
Theorem finished_releases_both (now : Q) (success : bool) (m : RateLimitManager) :
  In None (recents (request_limit m)) ->
  In None (recents (error_limit m)) ->
  exists rdone rrest edone erest,
    recents (request_limit m) = rdone ++ None :: rrest /\ ~ In None rdone /\
    recents (error_limit m) = edone ++ None :: erest /\ ~ In None edone /\
    finished now success m =
      Ok (mkManager
            (set_recents (request_limit m) (rdone ++ Some now :: rrest))
            (set_recents (error_limit m)
               (if success then edone ++ erest else edone ++ Some now :: erest))) /\
    (forall later,
        later - window (error_limit m) <= now ->
        exists kept,
          recents (forget_old later
                     (set_recents (error_limit m) (edone ++ Some now :: erest))) =
            kept ++ Some now :: erest /\
          (length kept <= length edone)%nat) /\
    (forall later,
        Forall (old (later - window (error_limit m))) edone ->
        now < later - window (error_limit m) ->
        recents (forget_old later
                   (set_recents (error_limit m) (edone ++ Some now :: erest))) =
        popleft_while_old (later - window (error_limit m)) erest).
Proof.
  intros Hr He.
  destruct (pending_split _ Hr) as [rdone [rrest [Hrd Hrn]]].
  destruct (pending_split _ He) as [edone [erest [Hed Hen]]].
  exists rdone, rrest, edone, erest.
  repeat split; try assumption.
  - unfold finished, finished_with, release. rewrite Hrd, Hed.
    rewrite !fill_leftmost_pending_app, deque_remove_None_app by assumption.
    now destruct success.
  - intros later Hl. unfold forget_old, set_recents. cbn [recents window].
    now apply popleft_while_old_keeps_fresh.
  - intros later Hall Hlt. unfold forget_old, set_recents. cbn [recents window].
    rewrite popleft_while_old_app by assumption.
    simpl. apply Qlt_bool_iff in Hlt. now rewrite Hlt.
Qed.

Lemma finished_releases_both_witness :
  exists rdone rrest edone erest,
    [Some 1; None] = rdone ++ None :: rrest /\ ~ In None rdone /\
    [Some 1; None; None] = edone ++ None :: erest /\ ~ In None edone /\
    finished 2 false
      (mkManager (mkRateLimit 30 1 [Some 1; None])
                 (mkRateLimit 300 180 [Some 1; None; None])) =
      Ok (mkManager
            (mkRateLimit 30 1 (rdone ++ Some 2 :: rrest))
            (mkRateLimit 300 180 (edone ++ Some 2 :: erest))) /\
    (forall later,
        later - 180 <= 2 ->
        exists kept,
          recents (forget_old later
                     (mkRateLimit 300 180 (edone ++ Some 2 :: erest))) =
            kept ++ Some 2 :: erest /\
          (length kept <= length edone)%nat) /\
    (forall later,
        Forall (old (later - 180)) edone ->
        2 < later - 180 ->
        recents (forget_old later
                   (mkRateLimit 300 180 (edone ++ Some 2 :: erest))) =
        popleft_while_old (later - 180) erest).
Proof.
  apply (finished_releases_both 2 false
           (mkManager (mkRateLimit 30 1 [Some 1; None])
                      (mkRateLimit 300 180 [Some 1; None; None]))).
  - simpl. right; left; reflexivity.
  - simpl. right; left; reflexivity.
Defined.


(** * Further properties *)

(** ** Forgetting twice *)

Lemma old_later (threshold1 threshold2 : Q) (r : option Q) :
  threshold1 <= threshold2 -> old threshold1 r -> old threshold2 r.
Proof.
  intros Hle [epoch [-> Hlt]]. exists epoch. split; [reflexivity|].
  eapply Qlt_le_trans; eassumption.
Qed.

Lemma popleft_while_old_twice (threshold1 threshold2 : Q) (d : deque) :
  threshold1 <= threshold2 ->
  popleft_while_old threshold2 (popleft_while_old threshold1 d) =
  popleft_while_old threshold2 d.
Proof.
  intros Hle.
  destruct (popleft_while_old_split threshold1 d) as [gone [Hd Hall]].
  remember (popleft_while_old threshold1 d) as rest eqn:Hrest.
  rewrite Hd. symmetry. apply popleft_while_old_app.
  eapply Forall_impl; [|exact Hall]. intros r. now apply old_later.
Qed.

(** X1: forgetting at a time [now1] and then at a later time [now2] leaves
    the limiter as forgetting at [now2] alone does; in particular forgetting
    twice at the same time changes nothing the second time. *)
Theorem forget_old_later_absorbs_earlier (now1 now2 : Q) (self : RateLimit) :
  now1 <= now2 ->
  forget_old now2 (forget_old now1 self) = forget_old now2 self.
Proof.
  intros Hle. unfold forget_old, set_recents. cbn [limit window recents].
  f_equal. apply popleft_while_old_twice. lra.
Qed.

Lemma forget_old_later_absorbs_earlier_witness :
  forget_old 3 (forget_old 2 (mkRateLimit 4 1 [Some (1 # 2); Some (3 # 2); None])) =
  forget_old 3 (mkRateLimit 4 1 [Some (1 # 2); Some (3 # 2); None]).
Proof.
  apply (forget_old_later_absorbs_earlier 2 3
           (mkRateLimit 4 1 [Some (1 # 2); Some (3 # 2); None])).
  discriminate.
Defined.

(** ** What a segment of [reserve] takes from the queue *)

Lemma trims_forget_then (now : Q) (self : RateLimit) (o : outcome) :
  now <= outcome_clock o ->
  trims (forget_old now self) o -> trims self o.
Proof.
  intros Hle [gone [kept [Hd [Hall [Hr [Hl Hw]]]]]].
  destruct (popleft_while_old_split (now - window self) (recents self))
    as [gone0 [Hd0 Hall0]].
  change (popleft_while_old (now - window self) (recents self))
    with (recents (forget_old now self)) in Hd0.
  exists (gone0 ++ gone), kept. repeat split; try assumption.
  - rewrite Hd0, Hd. apply app_assoc.
  - apply Forall_app; split; [|exact Hall].
    eapply Forall_impl; [|exact Hall0]. intros r. apply old_later. lra.
Qed.

Lemma trims_append (now : Q) (self : RateLimit) (slept : list Q) :
  (length (recents self) <= limit self)%nat ->
  length (recents self) <> limit self ->
  trims self
    (Returned now
       (set_recents self (deque_append (limit self) (recents self) None)) slept).
Proof.
  intros Hle Hne. exists [], (recents self). repeat split.
  - constructor.
  - cbn [outcome_limiter appended]. rewrite recents_set_recents.
    now apply deque_append_room.
Qed.

Lemma trims_nothing (self : RateLimit) (o : outcome) :
  outcome_limiter o = self -> appended o = [] -> trims self o.
Proof.
  intros Hs Ha. exists [], (recents self). rewrite Hs, Ha, app_nil_r.
  repeat split. constructor.
Qed.

Lemma reserve_inner_trims (fuel : nat) :
  forall now self slept,
    (length (recents self) <= limit self)%nat ->
    trims self (reserve_inner fuel now self slept).
Proof.
  induction fuel as [|fuel IH]; intros now self slept Hle;
    rewrite reserve_inner_eq;
    destruct (recents self) as [|[epoch|] d] eqn:E;
    try (apply trims_nothing; reflexivity);
    cbv zeta; destruct (Qlt_bool _ 0) eqn:D;
    try (apply trims_nothing; reflexivity);
    apply Qlt_bool_false_iff in D;
    set (now' := now + (epoch + window self - now + margin)) in *;
    assert (Hle' : (length (recents (forget_old now' self)) <=
                    limit (forget_old now' self))%nat)
      by (apply (within_forget (limit self) now' self); split;
          [reflexivity | rewrite E; exact Hle]);
    destruct (_ =? _) eqn:L.
  - apply (trims_forget_then now'); [apply Qle_refl|].
    apply trims_nothing; reflexivity.
  - apply (trims_forget_then now'); [apply Qle_refl|].
    apply trims_append; [assumption | now apply Nat.eqb_neq].
  - apply (trims_forget_then now'); [apply reserve_inner_clock|].
    now apply IH.
  - apply (trims_forget_then now'); [apply Qle_refl|].
    apply trims_append; [assumption | now apply Nat.eqb_neq].
Qed.

Lemma reserve_trims (now : Q) (self : RateLimit) :
  (length (recents self) <= limit self)%nat -> trims self (reserve now self).
Proof.
  intros Hle.
  assert (Hle' : (length (recents (forget_old now self)) <=
                  limit (forget_old now self))%nat)
    by (apply (within_forget (limit self) now self); split; [reflexivity | exact Hle]).
  apply (trims_forget_then now); [apply reserve_clock|].
  unfold reserve, reserve_fuel, reserve_outer.
  destruct (_ =? _) eqn:L.
  - now apply reserve_inner_trims.
  - apply trims_append; [assumption | now apply Nat.eqb_neq].
Qed.

(** ** The capacity bound and what a returning call found *)

(** C1: in every state reached from a fresh limiter by any interleaving of
    reserve segments, releases and passing time, the queue holds at most
    [limit] records; and whenever a segment of [reserve] (from the start of
    the call or from a wake-up) returns, the queue it found is [gone ++ kept]
    where [gone] holds only finished records that are older than the window
    at the time of the return, [kept] has fewer than [limit] records, and the
    queue it leaves is [kept] with the pending record appended: the record is
    appended only once expiry has brought the queue below capacity, and
    nothing is pushed out to make room for it. *)
Theorem recents_never_exceed_limit
    (lim : nat) (window_secs : Q) (calls : list call) :
  let w := run (world_init lim window_secs) calls in
  limit (bucket w) = lim /\
  (length (recents (bucket w)) <= lim)%nat /\
  (forall now self slept,
      reserve (clock w) (bucket w) = Returned now self slept \/
      reserve_resume (clock w) (bucket w) = Returned now self slept ->
      exists gone kept,
        recents (bucket w) = gone ++ kept /\
        Forall (old (now - window (bucket w))) gone /\
        (length kept < lim)%nat /\
        recents self = kept ++ [None]) /\
  out_of_fuel (reserve (clock w) (bucket w)) = false /\
  out_of_fuel (reserve_resume (clock w) (bucket w)) = false.
Proof.
  intros w. pose proof (within_run lim window_secs calls) as HW.
  fold w in HW. destruct HW as [Hl Hn].
  assert (Hlen : (length (recents (bucket w)) <= limit (bucket w))%nat) by lia.
  split; [exact Hl|]. split; [exact Hn|]. split.
  - intros now self slept [R|R].
    + pose proof (reserve_trims (clock w) (bucket w) Hlen) as T.
      rewrite R in T. destruct T as [gone [kept [Hd [Hall [Hr _]]]]].
      cbn [outcome_clock outcome_limiter appended] in Hall, Hr.
      destruct (reserve_returned lim _ _ _ _ _ (conj Hl Hn) R) as [d [Hd' Hlt]].
      rewrite Hr in Hd'. apply app_inj_tail in Hd' as [-> _].
      exists gone, d. auto.
    + unfold reserve_resume in R.
      pose proof (reserve_inner_trims (length (recents (bucket w))) (clock w)
                    (bucket w) [] Hlen) as T.
      rewrite R in T. destruct T as [gone [kept [Hd [Hall [Hr _]]]]].
      cbn [outcome_clock outcome_limiter appended] in Hall, Hr.
      destruct (reserve_inner_returned lim _ _ _ _ _ _ _ (conj Hl Hn) R)
        as [d [Hd' Hlt]].
      rewrite Hr in Hd'. apply app_inj_tail in Hd' as [-> _].
      exists gone, d. auto.
  - split; [apply reserve_total | apply reserve_resume_total].
Qed.

Lemma recents_never_exceed_limit_witness :
  let w := run (world_init 2 1) [Reserve; Release 0 false; Reserve; Reserve; Tick 2; Reserve] in
  limit (bucket w) = 2%nat /\
  (length (recents (bucket w)) <= 2)%nat /\
  (forall now self slept,
      reserve (clock w) (bucket w) = Returned now self slept \/
      reserve_resume (clock w) (bucket w) = Returned now self slept ->
      exists gone kept,
        recents (bucket w) = gone ++ kept /\
        Forall (old (now - window (bucket w))) gone /\
        (length kept < 2)%nat /\
        recents self = kept ++ [None]) /\
  out_of_fuel (reserve (clock w) (bucket w)) = false /\
  out_of_fuel (reserve_resume (clock w) (bucket w)) = false.
Proof.
  apply (recents_never_exceed_limit 2 1
           [Reserve; Release 0 false; Reserve; Reserve; Tick 2; Reserve]).
Defined.

(** X2: a segment of [reserve], from the start of the call or from a
    wake-up, on a queue of at most [limit] records takes away nothing but a
    prefix of finished records that are older than the window at the time
    the segment ends; every pending and every unexpired record is kept in
    place, the one new pending record goes to the back exactly when the
    segment returns, and the bound of the deque never discards a record. *)
Theorem reserve_drops_only_expired (now : Q) (self : RateLimit) :
  (length (recents self) <= limit self)%nat ->
  trims self (reserve now self) /\ trims self (reserve_resume now self).
Proof.
  intros Hle. split; [now apply reserve_trims | now apply reserve_inner_trims].
Qed.

Lemma reserve_drops_only_expired_witness :
  trims (mkRateLimit 2 1 [Some 0; Some 2]) (reserve 2 (mkRateLimit 2 1 [Some 0; Some 2])) /\
  trims (mkRateLimit 2 1 [Some 0; Some 2])
        (reserve_resume 2 (mkRateLimit 2 1 [Some 0; Some 2])).
Proof.
  apply (reserve_drops_only_expired 2 (mkRateLimit 2 1 [Some 0; Some 2])).
  simpl. lia.
Defined.

(** ** One pass is enough *)

(** On a queue of at most [limit] records the sleep is followed by a return:
    the front record has been forgotten, so the queue is no longer full. *)
Lemma reserve_inner_one_pass (fuel : nat) (now : Q) (self : RateLimit)
    (slept : list Q) (epoch : Q) (d : deque) :
  (length (recents self) <= limit self)%nat ->
  recents self = Some epoch :: d ->
  0 <= epoch + window self - now + margin ->
  reserve_inner fuel now self slept =
  Returned (now + (epoch + window self - now + margin))
    (set_recents self
       (popleft_while_old
          (now + (epoch + window self - now + margin) - window self) d ++ [None]))
    (slept ++ [epoch + window self - now + margin]).
Proof.
  intros Hle E D. rewrite reserve_inner_eq, E. cbv zeta.
  apply Qlt_bool_false_iff in D. rewrite D.
  pose proof (front_forgotten_after_sleep now self epoch d E) as Hf.
  pose proof (popleft_while_old_length
                (now + (epoch + window self - now + margin) - window self) d) as Hl.
  rewrite E in Hle. simpl in Hle.
  set (self' := forget_old (now + (epoch + window self - now + margin)) self) in *.
  assert (Hlim : limit self' = limit self) by reflexivity.
  destruct (_ =? _) eqn:L; [apply Nat.eqb_eq in L; rewrite Hf in L; lia|].
  rewrite deque_append_room by (rewrite Hf; lia).
  rewrite Hf. reflexivity.
Qed.

(** X3: a segment of [reserve] on a queue of at most [limit] records calls
    [time.sleep] at most once; the body of the outer loop never runs a
    second time. *)
Theorem reserve_sleeps_at_most_once (now : Q) (self : RateLimit) :
  (length (recents self) <= limit self)%nat ->
  (length (outcome_slept (reserve now self)) <= 1)%nat /\
  (length (outcome_slept (reserve_resume now self)) <= 1)%nat.
Proof.
  assert (H : forall fuel t self0,
             (length (recents self0) <= limit self0)%nat ->
             (length (outcome_slept (reserve_inner fuel t self0 [])) <= 1)%nat).
  { intros fuel t self0 Hle.
    destruct (recents self0) as [|[epoch|] d] eqn:E.
    - rewrite reserve_inner_eq, E. simpl. lia.
    - destruct (Qlt_bool (epoch + window self0 - t + margin) 0) eqn:D.
      + rewrite reserve_inner_eq, E. cbv zeta. rewrite D. simpl. lia.
      + apply Qlt_bool_false_iff in D.
        rewrite <- E in Hle.
        rewrite (reserve_inner_one_pass fuel t self0 [] epoch d Hle E D).
        simpl. lia.
    - rewrite reserve_inner_eq, E. simpl. lia. }
  intros Hle. split; [|now apply H].
  unfold reserve, reserve_fuel, reserve_outer.
  destruct (_ =? _); [|simpl; lia].
  apply H. apply (within_forget (limit self) now self). split; [reflexivity | exact Hle].
Qed.

Lemma reserve_sleeps_at_most_once_witness :
  let self := mkRateLimit 2 1 [Some 0; Some 0] in
  (length (outcome_slept (reserve 0 self)) <= 1)%nat /\
  (length (outcome_slept (reserve_resume 0 self)) <= 1)%nat.
Proof.
  apply (reserve_sleeps_at_most_once 0 (mkRateLimit 2 1 [Some 0; Some 0])).
  simpl. lia.
Defined.

(** X4: when [reserve] returns without sleeping and when it blocks, on a
    limiter holding at most [limit] records.  With [self0] the limiter after
    the [__forget_old] of the entry: if the queue of [self0] has room the
    call returns at once, without sleeping, with the pending record
    appended; if it is full with a pending front the call blocks in [wait],
    the queue as in [self0].  Conversely a call returns without a sleep only
    if [self0] had room, and blocks only if [self0] was full with a pending
    front. *)
Theorem reserve_first_segment (now : Q) (self : RateLimit) :
  (length (recents self) <= limit self)%nat ->
  let self0 := forget_old now self in
  ((length (recents self0) < limit self)%nat ->
   reserve now self =
   Returned now (set_recents self0 (recents self0 ++ [None])) []) /\
  (forall rest,
      length (recents self0) = limit self ->
      recents self0 = None :: rest ->
      reserve now self = Parked now self0 []) /\
  (forall t self',
      reserve now self = Returned t self' [] ->
      (length (recents self0) < limit self)%nat) /\
  (forall t self' sl,
      reserve now self = Parked t self' sl ->
      length (recents self0) = limit self /\
      exists rest, recents self0 = None :: rest).
Proof.
  intros Hle self0.
  assert (Hl0 : limit self0 = limit self) by reflexivity.
  assert (Hle0 : (length (recents self0) <= limit self0)%nat)
    by (apply (within_forget (limit self) now self); split; [reflexivity | exact Hle]).
  assert (Hfull : length (recents self0) = limit self ->
            reserve now self =
            reserve_inner (length (recents self)) now self0 []).
  { intros F. unfold reserve, reserve_fuel, reserve_outer. fold self0.
    now rewrite Hl0, F, Nat.eqb_refl. }
  assert (Hroom : (length (recents self0) < limit self)%nat ->
            reserve now self =
            Returned now (set_recents self0 (recents self0 ++ [None])) []).
  { intros F. unfold reserve, reserve_fuel, reserve_outer. fold self0.
    destruct (_ =? _) eqn:L; [apply Nat.eqb_eq in L; lia|].
    now rewrite deque_append_room by lia. }
  assert (Hcases : (length (recents self0) < limit self)%nat \/
                   length (recents self0) = limit self) by lia.
  split; [exact Hroom|]. split; [|split].
  - intros rest F E. rewrite (Hfull F), reserve_inner_eq, E. reflexivity.
  - intros t self' R. destruct Hcases as [F|F]; [exact F|exfalso].
    rewrite (Hfull F) in R.
    destruct (recents self0) as [|[epoch|] d] eqn:E.
    + rewrite reserve_inner_eq, E in R. discriminate.
    + destruct (Qlt_bool (epoch + window self0 - now + margin) 0) eqn:D.
      * rewrite reserve_inner_eq, E in R. cbv zeta in R. rewrite D in R.
        discriminate.
      * apply Qlt_bool_false_iff in D. rewrite <- E in Hle0.
        rewrite (reserve_inner_one_pass _ now self0 [] epoch d Hle0 E D) in R.
        discriminate.
    + rewrite reserve_inner_eq, E in R. discriminate.
  - intros t self' sl R. destruct Hcases as [F|F].
    + rewrite (Hroom F) in R. discriminate.
    + split; [exact F|]. rewrite (Hfull F) in R.
      destruct (recents self0) as [|[epoch|] d] eqn:E.
      * rewrite reserve_inner_eq, E in R. discriminate.
      * destruct (Qlt_bool (epoch + window self0 - now + margin) 0) eqn:D.
        -- rewrite reserve_inner_eq, E in R. cbv zeta in R. rewrite D in R.
           discriminate.
        -- apply Qlt_bool_false_iff in D. rewrite <- E in Hle0.
           rewrite (reserve_inner_one_pass _ now self0 [] epoch d Hle0 E D) in R.
           discriminate.
      * now exists d.
Qed.

Lemma reserve_first_segment_witness :
  let self := mkRateLimit 2 1 [Some 0; Some 3] in
  let self0 := forget_old 4 self in
  ((length (recents self0) < 2)%nat ->
   reserve 4 self = Returned 4 (set_recents self0 (recents self0 ++ [None])) []) /\
  (forall rest,
      length (recents self0) = 2%nat ->
      recents self0 = None :: rest ->
      reserve 4 self = Parked 4 self0 []) /\
  (forall t self',
      reserve 4 self = Returned t self' [] ->
      (length (recents self0) < 2)%nat) /\
  (forall t self' sl,
      reserve 4 self = Parked t self' sl ->
      length (recents self0) = 2%nat /\
      exists rest, recents self0 = None :: rest).
Proof.
  apply (reserve_first_segment 4 (mkRateLimit 2 1 [Some 0; Some 3])).
  simpl. lia.
Defined.

(** ** A limiter of limit 0 *)

(** X5: a limiter built with limit 0 never gives a slot: in every state
    reached from it the queue is empty and [reserve] raises [IndexError]
    (from [self.recents[0]]) without sleeping and without changing anything. *)
Theorem reserve_with_limit_zero_raises (window_secs : Q) (calls : list call) :
  let w := run (world_init 0 window_secs) calls in
  recents (bucket w) = [] /\
  reserve (clock w) (bucket w) = Raised IndexError (clock w) (bucket w) [].
Proof.
  intros w. pose proof (within_run 0 window_secs calls) as [Hl Hn]. fold w in Hl, Hn.
  assert (E : recents (bucket w) = []).
  { destruct (recents (bucket w)); [reflexivity | simpl in Hn; lia]. }
  split; [exact E|].
  assert (F : forget_old (clock w) (bucket w) = bucket w).
  { apply forget_old_nothing. unfold forget_old. rewrite recents_set_recents.
    now rewrite E. }
  unfold reserve, reserve_fuel, reserve_outer. rewrite F, E, Hl.
  cbn [length Nat.eqb]. rewrite reserve_inner_eq, E. reflexivity.
Qed.

(** ** The shape of the queue *)

Lemma finished_first_form (d : deque) :
  finished_first d = true ->
  exists epochs k, d = map Some epochs ++ repeat None k.
Proof.
  induction d as [|[epoch|] d IH]; simpl; intros H.
  - exists [], 0%nat. reflexivity.
  - destruct (IH H) as [epochs [k ->]]. exists (epoch :: epochs), k. reflexivity.
  - exists [], (S (length d)). simpl. f_equal.
    clear IH. induction d as [|[e|] d IHd]; simpl in *; try discriminate;
      [reflexivity | now rewrite <- IHd].
Qed.

(** X6: in every state reached from a fresh limiter the queue is a run of
    finished records followed by a run of pending ones: no pending record
    ever sits in front of a finished one. *)
Theorem recents_finished_then_pending
    (lim : nat) (window_secs : Q) (calls : list call) :
  exists epochs k,
    recents (bucket (run (world_init lim window_secs) calls)) =
    map Some epochs ++ repeat None k.
Proof. apply finished_first_form. apply shape_run. Qed.

(** ** One thread on its own *)

(** A call that blocks at its first wait found a pending front. *)
Lemma reserve_first_segment_parks (now : Q) (self : RateLimit)
    (t : Q) (self' : RateLimit) (sl : list Q) :
  (0 < limit self)%nat ->
  reserve now self = Parked t self' sl ->
  exists rest, recents self' = None :: rest.
Proof.
  intros Hpos. unfold reserve, reserve_fuel, reserve_outer.
  destruct (_ =? _); [|discriminate].
  generalize (@nil Q) as slept.
  generalize (forget_old now self) as self0. generalize now as t0.
  induction (length (recents self)) as [|fuel IH]; intros t0 self0 slept;
    rewrite reserve_inner_eq;
    destruct (recents self0) as [|[epoch|] d] eqn:E; try discriminate;
    try (intros R; injection R as _ <- _; eauto);
    cbv zeta; destruct (Qlt_bool _ 0); try discriminate;
    destruct (_ =? _); try discriminate.
  apply IH.
Qed.

Lemma no_pending_suffix (gone d : deque) :
  ~ In None (gone ++ d) -> ~ In None d.
Proof. intros H Hin. apply H. apply in_or_app. now right. Qed.

Lemma fill_or_remove_last_pending (ts : Q) (does_not_count : bool)
    (self : RateLimit) (kept : deque) :
  ~ In None kept ->
  recents self = kept ++ [None] ->
  exists self',
    release ts does_not_count self = Ok self' /\
    ~ In None (recents self') /\
    limit self' = limit self /\
    (length (recents self') <= length (recents self))%nat.
Proof.
  intros Hn E. unfold release. rewrite E.
  rewrite fill_leftmost_pending_app, deque_remove_None_app by assumption.
  destruct does_not_count; eexists; (split; [reflexivity|]);
    rewrite recents_set_recents; repeat split.
  - now rewrite app_nil_r.
  - rewrite !length_app. simpl. lia.
  - intros Hin. apply in_app_or in Hin as [Hin|[Hin|[]]]; [auto | discriminate].
  - rewrite !length_app. simpl. lia.
Qed.

(** The state between two rounds: nobody waits and no slot is pending; with
    the single clock read of a segment, nothing was raised and every sleep
    so far lasted at least the margin. *)
Lemma round_keeps_quiet (lim : nat) (r : round) (w : world) :
  (0 < lim)%nat ->
  within lim (bucket w) -> ~ In None (recents (bucket w)) ->
  parked w = 0%nat -> woken w = 0%nat -> raised w = [] ->
  Forall (Qle margin) (sleeps w) ->
  let w' := run w (rounds [r]) in
  within lim (bucket w') /\ ~ In None (recents (bucket w')) /\
  parked w' = 0%nat /\ woken w' = 0%nat /\ raised w' = [] /\
  Forall (Qle margin) (sleeps w').
Proof.
  intros Hpos HW Hn Hp Hk Hr Hs.
  unfold rounds. cbn [flat_map app run fold_left].
  set (w1 := step w (Tick (pause r))).
  assert (H1 : bucket w1 = bucket w /\ parked w1 = 0%nat /\ woken w1 = 0%nat /\
               raised w1 = [] /\ sleeps w1 = sleeps w).
  { unfold w1; cbn [step]. destruct (Qle_bool 0 (pause r)); cbn; auto. }
  destruct H1 as [Hb1 [Hp1 [Hk1 [Hr1 Hs1]]]].
  rewrite <- Hb1 in HW, Hn. destruct HW as [Hl Hlen].
  assert (Hlen' : (length (recents (bucket w1)) <= limit (bucket w1))%nat) by lia.
  assert (Hpos' : (0 < limit (bucket w1))%nat) by lia.
  pose proof (reserve_trims (clock w1) (bucket w1) Hlen')
    as [gone [kept [Hd [_ [Hrec [Hlim _]]]]]].
  pose proof (reserve_from_start_sleeps_margin (clock w1) (bucket w1) Hpos')
    as [Hnr Hsl].
  pose proof (reserve_total (clock w1) (bucket w1)) as Htot.
  pose proof (within_forget lim (clock w1) _ (conj Hl Hlen)) as HWf.
  assert (Hkept : ~ In None kept).
  { rewrite Hd in Hn. now apply no_pending_suffix in Hn. }
  cbn [step].
  destruct (reserve (clock w1) (bucket w1)) as [t self' sl|t self' sl| |] eqn:R;
    try discriminate; cbn [outcome_limiter outcome_slept appended] in *.
  - (* returned *)
    destruct (fill_or_remove_last_pending (stamp r) (uncounted r) self' kept
                Hkept Hrec) as [self'' [Hrel [Hn'' [Hl'' Hlen'']]]].
    cbn [absorb bucket]. rewrite Hrel. unfold notify.
    cbn [bucket parked woken raised sleeps clock]. rewrite Hp1.
    cbn [bucket parked woken raised sleeps clock].
    pose proof (reserve_returned lim _ _ _ _ _ (conj Hl Hlen) R) as [d0 [Hd0 Hlt]].
    repeat split; try assumption.
    + congruence.
    + rewrite Hd0, length_app in Hlen''. simpl in Hlen''. lia.
    + rewrite Hs1. apply Forall_app; split; assumption.
  - (* a pending front needs a pending record *)
    exfalso. rewrite app_nil_r in Hrec.
    destruct (reserve_first_segment_parks _ _ _ _ _ Hpos' R) as [rest Hfront].
    apply Hkept. rewrite <- Hrec, Hfront. now left.
Qed.

Lemma rounds_keep_quiet (lim : nat) (l : list round) :
  (0 < lim)%nat ->
  forall w,
    within lim (bucket w) -> ~ In None (recents (bucket w)) ->
    parked w = 0%nat -> woken w = 0%nat -> raised w = [] ->
    Forall (Qle margin) (sleeps w) ->
    let w' := run w (rounds l) in
    ~ In None (recents (bucket w')) /\
    parked w' = 0%nat /\ woken w' = 0%nat /\ raised w' = [] /\
    Forall (Qle margin) (sleeps w').
Proof.
  intros Hpos. induction l as [|r l IH]; intros w HW Hn Hp Hk Hr Hs.
  - cbn. auto.
  - change (rounds (r :: l)) with (rounds [r] ++ rounds l).
    cbv zeta. rewrite run_app.
    destruct (round_keeps_quiet lim r w Hpos HW Hn Hp Hk Hr Hs)
      as [HW' [Hn' [Hp' [Hk' [Hr' Hs']]]]].
    now apply IH.
Qed.

(** X7: a single thread that uses a fresh limiter of positive limit in
    rounds (let some time pass, reserve, release with any timestamp,
    counting or not) is never blocked in [wait]: after any number of rounds
    nobody waits on the condition variable and no slot is left pending. *)
Theorem single_thread_never_blocks
    (lim : nat) (window_secs : Q) (l : list round) :
  (0 < lim)%nat ->
  let w := run (world_init lim window_secs) (rounds l) in
  ~ In None (recents (bucket w)) /\
  parked w = 0%nat /\ woken w = 0%nat.
Proof.
  intros Hpos.
  destruct (rounds_keep_quiet lim l Hpos (world_init lim window_secs))
    as [Hn [Hp [Hk _]]]; try reflexivity.
  - apply within_init.
  - simpl. auto.
  - constructor.
  - auto.
Qed.

Lemma single_thread_never_blocks_witness :
  let w := run (world_init 1 1)
             (rounds [mkRound 0 0 false; mkRound (1 # 2) 7 true;
                      mkRound 0 (1 # 2) false; mkRound (1 # 4) 1 false]) in
  ~ In None (recents (bucket w)) /\
  parked w = 0%nat /\ woken w = 0%nat.
Proof.
  apply (single_thread_never_blocks 1 1
           [mkRound 0 0 false; mkRound (1 # 2) 7 true;
            mkRound 0 (1 # 2) false; mkRound (1 # 4) 1 false]).
  lia.
Defined.

(** ** Waiters and releases that do not count *)

Lemma reserve_parks_on_pending_front (now : Q) (self : RateLimit) (rest : deque) :
  recents self = None :: rest ->
  length (recents self) = limit self ->
  reserve now self = Parked now self [].
Proof.
  intros E Hfull.
  assert (F : forget_old now self = self).
  { apply forget_old_nothing. unfold forget_old. rewrite recents_set_recents.
    now rewrite E. }
  unfold reserve, reserve_fuel, reserve_outer. rewrite F, Hfull, Nat.eqb_refl.
  rewrite reserve_inner_eq, E. reflexivity.
Qed.

Section Waiter.
Variables (m : nat) (window_secs ts : Q).

(** The limiter of limit [S m] with all its slots taken and one more
    [reserve] blocked in [wait]. *)
Lemma run_full_and_waiting :
  run (world_init (S m) window_secs) (repeat Reserve (S m) ++ [Reserve]) =
  mkWorld 0 (mkRateLimit (S m) window_secs (repeat None (S m))) 1 0 [] [].
Proof.
  rewrite run_snoc, run_reserves by lia. cbn [step clock bucket].
  rewrite (reserve_parks_on_pending_front _ _ (repeat None m)).
  - reflexivity.
  - reflexivity.
  - cbn [recents limit]. now rewrite repeat_length.
Qed.

(** The first release that does not count wakes the waiter. *)
Lemma run_first_uncounted_release :
  run (world_init (S m) window_secs)
      (repeat Reserve (S m) ++ [Reserve; Release ts true]) =
  mkWorld 0 (mkRateLimit (S m) window_secs (repeat None m)) 0 1 [] [].
Proof.
  change [Reserve; Release ts true] with ([Reserve] ++ [Release ts true]).
  rewrite app_assoc, run_snoc, run_full_and_waiting. reflexivity.
Qed.

Lemma run_more_uncounted_releases (j : nat) :
  (j <= m)%nat ->
  run (mkWorld 0 (mkRateLimit (S m) window_secs (repeat None m)) 0 1 [] [])
      (repeat (Release ts true) j) =
  mkWorld 0 (mkRateLimit (S m) window_secs (repeat None (m - j))) 0 1 [] [].
Proof.
  induction j as [|j IH]; intros Hj.
  - cbn [repeat run fold_left]. now rewrite Nat.sub_0_r.
  - rewrite <- repeat_snoc, run_snoc, IH by lia.
    replace (m - j)%nat with (S (m - S j)) by lia. reflexivity.
Qed.

(** X8: on a limiter of limit [n >= 1] (here [n = S m]) whose [n] slots are
    taken while one more [reserve] is blocked in [wait], releasing all [n]
    slots with [does_not_count=True] empties the queue, and the waiter, once
    it runs, raises [IndexError] at [self.recents[0]] instead of taking a
    slot. *)
Theorem waiter_raises_on_emptied_queue :
  let w := run (world_init (S m) window_secs)
             (repeat Reserve (S m) ++ [Reserve] ++
              repeat (Release ts true) (S m) ++ [Wake]) in
  raised w = [IndexError] /\
  recents (bucket w) = [] /\
  parked w = 0%nat /\ woken w = 0%nat /\ sleeps w = [].
Proof.
  cbv zeta.
  change (repeat (Release ts true) (S m))
    with ([Release ts true] ++ repeat (Release ts true) m).
  replace (repeat Reserve (S m) ++ [Reserve] ++
           ([Release ts true] ++ repeat (Release ts true) m) ++ [Wake])
    with ((repeat Reserve (S m) ++ [Reserve; Release ts true]) ++
          repeat (Release ts true) m ++ [Wake])
    by (rewrite <- !app_assoc; reflexivity).
  rewrite run_app, run_first_uncounted_release, run_snoc.
  rewrite run_more_uncounted_releases by lia.
  rewrite Nat.sub_diag. cbn. auto.
Qed.

(** X9: on a limiter of limit [n >= 2] (here [n = S (S k)]) whose slots are
    all taken while one more [reserve] is blocked in [wait], one release with
    [does_not_count=True] frees a slot and wakes the waiter, but the waiter
    finds the front still pending and goes back to [wait] without taking the
    free slot, while a [reserve] that starts now gets it at once. *)
Theorem waiter_stays_blocked_with_room :
  forall k, m = S k ->
  let w := run (world_init (S m) window_secs)
             (repeat Reserve (S m) ++ [Reserve; Release ts true; Wake]) in
  parked w = 1%nat /\ woken w = 0%nat /\ raised w = [] /\
  recents (bucket w) = repeat None m /\
  (length (recents (bucket w)) < limit (bucket w))%nat /\
  reserve (clock w) (bucket w) =
  Returned (clock w) (set_recents (bucket w) (repeat None (S m))) [].
Proof.
  intros k Hk. cbv zeta.
  change [Reserve; Release ts true; Wake]
    with ([Reserve; Release ts true] ++ [Wake]).
  rewrite app_assoc, run_snoc, run_first_uncounted_release.
  subst m. cbn [step woken clock bucket].
  assert (R : reserve_resume 0
                (mkRateLimit (S (S k)) window_secs (repeat None (S k))) =
              Parked 0 (mkRateLimit (S (S k)) window_secs (repeat None (S k))) []).
  { unfold reserve_resume. rewrite reserve_inner_eq. reflexivity. }
  rewrite R. cbn [absorb clock bucket parked woken raised sleeps recents limit].
  repeat split.
  - rewrite repeat_length. lia.
  - rewrite reserve_at_once.
    + cbn [recents]. now rewrite repeat_snoc.
    + reflexivity.
    + cbn [recents limit]. rewrite repeat_length. lia.
Qed.
End Waiter.

Lemma waiter_stays_blocked_with_room_witness :
  let w := run (world_init 3 1)
             (repeat Reserve 3 ++ [Reserve; Release 0 true; Wake]) in
  parked w = 1%nat /\ woken w = 0%nat /\ raised w = [] /\
  recents (bucket w) = repeat None 2 /\
  (length (recents (bucket w)) < limit (bucket w))%nat /\
  reserve (clock w) (bucket w) =
  Returned (clock w) (set_recents (bucket w) (repeat None 3)) [].
Proof.
  apply (waiter_stays_blocked_with_room 2 1 0 1). reflexivity.
Defined.

(** ** Pending records *)

Lemma pending_count_app (d1 d2 : deque) :
  pending_count (d1 ++ d2) = (pending_count d1 + pending_count d2)%nat.
Proof. unfold pending_count. now rewrite filter_app, length_app. Qed.

Lemma pending_count_old (threshold : Q) (gone : deque) :
  Forall (old threshold) gone -> pending_count gone = 0%nat.
Proof.
  induction 1 as [|r gone [epoch [-> _]] _ IH]; [reflexivity|]. exact IH.
Qed.

Lemma pending_count_le (d : deque) : (pending_count d <= length d)%nat.
Proof. unfold pending_count. apply filter_length_le. Qed.

Lemma pending_count_all (d : deque) :
  forallb is_pending d = true -> pending_count d = length d.
Proof.
  unfold pending_count.
  induction d as [|[epoch|] d IH]; simpl; intros H;
    [reflexivity | discriminate | now rewrite IH].
Qed.

Lemma pending_count_fill (ts : Q) (d : deque) :
  pending_count (fill_leftmost_pending ts d) = pred (pending_count d).
Proof.
  induction d as [|[epoch|] d IH]; [reflexivity | exact IH | reflexivity].
Qed.

Lemma pending_count_remove (d : deque) :
  match deque_remove_None d with
  | Some d' => pending_count d' = pred (pending_count d)
  | None => pending_count d = 0%nat
  end.
Proof.
  induction d as [|[epoch|] d IH]; simpl; try reflexivity.
  destruct (deque_remove_None d); exact IH.
Qed.

Lemma pending_count_trims (self : RateLimit) (o : outcome) :
  trims self o ->
  pending_count (recents (outcome_limiter o)) =
  (pending_count (recents self) + length (appended o))%nat.
Proof.
  intros [gone [kept [Hd [Hall [Hr _]]]]].
  rewrite Hr, Hd, !pending_count_app, (pending_count_old _ _ Hall).
  destruct o; reflexivity.
Qed.

(** ** Sound limiters *)

Lemma sound_forget (lim : nat) (win now : Q) (self : RateLimit) :
  sound lim win self -> sound lim win (forget_old now self).
Proof.
  intros [HW [Hw Hs]]. repeat split.
  - now apply within_forget.
  - now apply within_forget.
  - exact Hw.
  - now apply shape_forget.
Qed.

Lemma sound_append (lim : nat) (win : Q) (self : RateLimit) :
  sound lim win self -> length (recents self) <> limit self ->
  sound lim win (set_recents self (deque_append (limit self) (recents self) None)).
Proof.
  intros [HW [Hw Hs]] Hne. split; [now apply within_append|].
  split; [exact Hw|]. rewrite recents_set_recents. now apply shape_append_raw.
Qed.

Lemma sound_release (lim : nat) (win ts : Q) (does_not_count : bool)
    (self self' : RateLimit) :
  sound lim win self -> release ts does_not_count self = Ok self' ->
  sound lim win self'.
Proof.
  intros [HW [Hw Hs]] E. split; [eapply within_release; eassumption|].
  split; [|eapply shape_release; eassumption].
  unfold release in E. destruct does_not_count.
  - destruct (deque_remove_None (recents self)); [|discriminate].
    now injection E as <-.
  - now injection E as <-.
Qed.

Lemma sound_length (lim : nat) (win : Q) (self : RateLimit) :
  sound lim win self -> (length (recents self) <= limit self)%nat.
Proof. intros [[Hl Hn] _]. lia. Qed.

(** A call that blocks at its first wait found the queue full. *)
Lemma reserve_inner_parks_full (fuel : nat) :
  forall now self slept t self' sl,
    length (recents self) = limit self ->
    reserve_inner fuel now self slept = Parked t self' sl ->
    length (recents self') = limit self'.
Proof.
  induction fuel as [|fuel IH]; intros now self slept t self' sl Hfull;
    rewrite reserve_inner_eq;
    destruct (recents self) as [|[epoch|] d] eqn:E; try discriminate;
    try (intros R; injection R as _ <- _; now rewrite E);
    cbv zeta; destruct (Qlt_bool _ 0); try discriminate;
    destruct (_ =? _) eqn:L; try discriminate.
  apply IH. now apply Nat.eqb_eq.
Qed.

Lemma reserve_parks_full (now : Q) (self : RateLimit)
    (t : Q) (self' : RateLimit) (sl : list Q) :
  reserve now self = Parked t self' sl ->
  length (recents self') = limit self'.
Proof.
  unfold reserve, reserve_fuel, reserve_outer.
  destruct (_ =? _) eqn:L; [|discriminate].
  apply reserve_inner_parks_full. now apply Nat.eqb_eq.
Qed.

(** On a limiter with fewer pending records than its limit, a call never
    blocks at its first wait: it returns, having taken one more slot. *)
Lemma reserve_returns_below_pending_limit (lim : nat) (win now : Q)
    (self : RateLimit) :
  (0 < lim)%nat ->
  sound lim win self ->
  (pending_count (recents self) < lim)%nat ->
  exists now' self' sl,
    reserve now self = Returned now' self' sl /\
    sound lim win self' /\
    pending_count (recents self') = S (pending_count (recents self)) /\
    now <= now'.
Proof.
  intros Hpos HS Hp.
  pose proof (sound_length _ _ _ HS) as Hlen.
  destruct HS as [[Hl Hn] [Hw Hs]].
  assert (Hpos' : (0 < limit self)%nat) by lia.
  pose proof (reserve_from_start_sleeps_margin now self Hpos') as [Hnr _].
  pose proof (reserve_total now self) as Htot.
  pose proof (pending_count_trims self _ (reserve_trims now self Hlen)) as Hpc.
  pose proof (reserve_clock now self) as Hck.
  assert (HS' : sound lim win (outcome_limiter (reserve now self))).
  { apply reserve_preserves.
    - intros t s. apply sound_forget.
    - apply sound_append.
    - repeat split; assumption. }
  destruct (reserve now self) as [t self' sl|t self' sl| |] eqn:R;
    try discriminate; cbn [outcome_limiter outcome_clock appended length] in *.
  - exists t, self', sl. repeat split; try apply HS'; try assumption. lia.
  - exfalso.
    pose proof (reserve_parks_full _ _ _ _ _ R) as Hfull.
    destruct (reserve_first_segment_parks _ _ _ _ _ Hpos' R) as [rest Hfront].
    destruct HS' as [[Hl' Hn'] [_ Hs']].
    rewrite Hfront in Hs'. cbn [finished_first] in Hs'.
    assert (Hall : pending_count (recents self') = length (recents self')).
    { rewrite Hfront. apply (pending_count_all (None :: rest)). exact Hs'. }
    lia.
Qed.

(** A woken waiter on a non-empty queue within the limit raises nothing but
    the [ValueError] of the negative sleep. *)
Lemma reserve_resume_raises_ValueError (now : Q) (self : RateLimit) (e : exn) :
  (length (recents self) <= limit self)%nat ->
  recents self <> [] ->
  raised_exn (reserve_resume now self) = Some e -> e = ValueError.
Proof.
  intros Hle Hne. unfold reserve_resume.
  destruct (recents self) as [|[epoch|] d] eqn:E; [congruence| |].
  - destruct (Qlt_bool (epoch + window self - now + margin) 0) eqn:D.
    + rewrite reserve_inner_eq, E. cbv zeta. rewrite D. cbn. congruence.
    + apply Qlt_bool_false_iff in D. rewrite <- E in Hle.
      rewrite (reserve_inner_one_pass _ now self [] epoch d Hle E D).
      discriminate.
  - rewrite reserve_inner_eq, E. discriminate.
Qed.

(** After a segment that did not raise the queue is not empty. *)
Lemma reserve_leaves_records (self : RateLimit) (o : outcome) :
  trims self o -> raised_exn o = None -> out_of_fuel o = false ->
  (forall t s sl, o = Parked t s sl -> recents s <> []) ->
  recents (outcome_limiter o) <> [].
Proof.
  intros [gone [kept [_ [_ [Hr _]]]]] Hx Hf Hp.
  destruct o; try discriminate; cbn [outcome_limiter appended] in *.
  - rewrite Hr. now destruct kept.
  - eapply Hp. reflexivity.
Qed.

Lemma reserve_resume_leaves_records (now : Q) (self : RateLimit) :
  (length (recents self) <= limit self)%nat ->
  recents self <> [] ->
  recents (outcome_limiter (reserve_resume now self)) <> [].
Proof.
  intros Hle Hne. unfold reserve_resume.
  destruct (recents self) as [|[epoch|] d] eqn:E; [congruence| |].
  - destruct (Qlt_bool (epoch + window self - now + margin) 0) eqn:D.
    + rewrite reserve_inner_eq, E. cbv zeta. rewrite D. cbn. congruence.
    + apply Qlt_bool_false_iff in D. rewrite <- E in Hle.
      rewrite (reserve_inner_one_pass _ now self [] epoch d Hle E D).
      cbn [outcome_limiter]. rewrite recents_set_recents.
      now destruct (popleft_while_old _ d).
  - rewrite reserve_inner_eq, E. cbn. congruence.
Qed.

(** ** The manager along every schedule *)

Lemma waits_on_request_later (now now' : Q) (l : list (gate * Q)) :
  now <= now' ->
  Forall (waits_on_request now) l -> Forall (waits_on_request now') l.
Proof.
  intros Hle. apply Forall_impl. intros t [Hg Hs]. split; [exact Hg|].
  eapply Qle_trans; eassumption.
Qed.

Lemma pick_Forall (P : gate * Q -> Prop) (g : gate) (l : list (gate * Q)) :
  forall t rest,
    pick g l = Some (t, rest) -> Forall P l -> P t /\ Forall P rest.
Proof.
  induction l as [|x l IH]; intros t rest Hp Hall; [discriminate|].
  inversion Hall as [|? ? Hx Hl]; subst. simpl in Hp.
  destruct (same_gate g (fst x)).
  - injection Hp as <- <-. now split.
  - destruct (pick g l) as [[t' rest']|]; [|discriminate].
    injection Hp as <- <-. destruct (IH _ _ eq_refl Hl) as [Ht Hr].
    split; [exact Ht | now constructor].
Qed.

Lemma steady_notify_gate (g : gate) (w : traffic) :
  steady w -> steady (notify_gate g w).
Proof.
  intros HS. unfold notify_gate.
  destruct (pick g (blocked w)) as [[t rest]|] eqn:Hp; [|exact HS].
  destruct HS as [Hreq Herr Hpend Hbl Hrun Hwt Hfail Hwaits].
  destruct (pick_Forall _ _ _ _ _ Hp Hbl) as [Ht Hrest].
  constructor; cbn [manager wall blocked runnable failures waits]; try assumption.
  - apply Forall_app; split; [assumption | now constructor].
  - intros E. destruct (Hwt E) as [Hb _]. rewrite Hb in Hp. discriminate.
Qed.

Lemma after_request_steady (w : traffic) (start : Q) (o1 : outcome) :
  steady w ->
  start <= outcome_clock o1 ->
  wall w <= outcome_clock o1 ->
  sound 30 1 (outcome_limiter o1) ->
  pending_count (recents (outcome_limiter o1)) =
    (pending_count (recents (request_limit (manager w))) + length (appended o1))%nat ->
  out_of_fuel o1 = false ->
  (forall e, raised_exn o1 = Some e -> e = ValueError) ->
  recents (outcome_limiter o1) <> [] ->
  steady (settle w (after_request_limit start (manager w) o1)).
Proof.
  intros [Hreq Herr Hpend Hbl Hrun Hwt Hfail Hwaits] Hstart Hwall HS1 Hp1 Hf Hx Hne.
  destruct o1 as [now1 r sl|now1 r sl|e now1 r sl|now1 r sl];
    cbn [outcome_clock outcome_limiter appended length raised_exn
         after_request_limit error_limit] in *;
    try discriminate.
  - (* the request limiter gave a slot: on to the error limiter *)
    pose proof (pending_count_le (recents r)) as Hple.
    pose proof (sound_length _ _ _ HS1) as Hlen1.
    assert (Hl1 : limit r = 30%nat) by apply HS1.
    destruct (reserve_returns_below_pending_limit 300 180 now1
                (error_limit (manager w)) ltac:(lia) Herr ltac:(lia))
      as [now' [e' [sl' [R [HS' [Hp' Hck]]]]]].
    rewrite R. cbn [after_error_limit request_limit settle].
    constructor; cbn [manager wall blocked runnable failures waits
                      request_limit error_limit]; try assumption.
    + lia.
    + eapply waits_on_request_later; [|exact Hbl]. lra.
    + eapply waits_on_request_later; [|exact Hrun]. lra.
    + intros E. contradiction.
    + apply Forall_app; split; [assumption|]. constructor; [lra | constructor].
  - (* blocked in the request limiter's wait *)
    cbn [settle].
    constructor; cbn [manager wall blocked runnable failures waits
                      request_limit error_limit]; try assumption.
    + lia.
    + apply Forall_app; split.
      * eapply waits_on_request_later; [|exact Hbl]. lra.
      * constructor; [|constructor]. split; [reflexivity | exact Hstart].
    + eapply waits_on_request_later; [|exact Hrun]. lra.
    + intros E. contradiction.
  - (* the request limiter's reserve raised *)
    cbn [settle].
    constructor; cbn [manager wall blocked runnable failures waits
                      request_limit error_limit]; try assumption.
    + lia.
    + eapply waits_on_request_later; [|exact Hbl]. lra.
    + eapply waits_on_request_later; [|exact Hrun]. lra.
    + intros E. contradiction.
    + apply Forall_app; split; [assumption|].
      constructor; [|constructor]. now rewrite (Hx e eq_refl).
Qed.

Lemma is_raised_raised_exn (o : outcome) :
  is_raised o = false -> raised_exn o = None.
Proof. destruct o; simpl; congruence. Qed.

Lemma steady_enter (w : traffic) : steady w -> steady (serve w Enter).
Proof.
  intros HS. cbn [serve]. unfold block_until_can_start_new_request.
  pose proof (steady_request w HS) as Hreq.
  pose proof (sound_length _ _ _ Hreq) as Hlen.
  assert (Hpos : (0 < limit (request_limit (manager w)))%nat).
  { destruct Hreq as [[Hl _] _]. rewrite Hl. lia. }
  pose proof (reserve_from_start_sleeps_margin (wall w) _ Hpos) as [Hnr _].
  pose proof (reserve_trims (wall w) _ Hlen) as Htr.
  apply after_request_steady; try assumption.
  - apply reserve_clock.
  - apply reserve_clock.
  - apply reserve_preserves;
      [intros t s; apply sound_forget | apply sound_append | exact Hreq].
  - now apply pending_count_trims.
  - apply reserve_total.
  - intros e He. rewrite (is_raised_raised_exn _ Hnr) in He. discriminate.
  - apply (reserve_leaves_records _ _ Htr).
    + now apply is_raised_raised_exn.
    + apply reserve_total.
    + intros t s sl R.
      destruct (reserve_first_segment_parks _ _ _ _ _ Hpos R) as [rest ->].
      discriminate.
Qed.

Lemma steady_resume (w : traffic) : steady w -> steady (serve w Resume).
Proof.
  intros HS. cbn [serve].
  destruct (runnable w) as [|[g start] rest] eqn:Hrn; [exact HS|].
  pose proof (steady_request w HS) as Hreq.
  pose proof (sound_length _ _ _ Hreq) as Hlen.
  assert (Hne : recents (request_limit (manager w)) <> []).
  { intros E. destruct (steady_waiters w HS E) as [_ Hr]. congruence. }
  pose proof (steady_runnable w HS) as Hrun. rewrite Hrn in Hrun.
  inversion Hrun as [|? ? [Hg Hst] Hrest]; subst. cbn [fst snd] in Hg, Hst. subst g.
  set (w0 := mkTraffic (wall w) (manager w) (blocked w) rest (stamped w)
                       (waits w) (failures w)).
  assert (HS0 : steady w0).
  { destruct HS as [H1 H2 H3 H4 H5 H6 H7 H8].
    constructor; cbn; try assumption.
    intros E. destruct (H6 E) as [_ Hr]. congruence. }
  cbn [admission_resume].
  change (manager w) with (manager w0). change (wall w) with (wall w0).
  apply after_request_steady; try assumption.
  - eapply Qle_trans; [exact Hst|]. apply reserve_inner_clock.
  - apply reserve_inner_clock.
  - apply reserve_resume_preserves;
      [intros t s; apply sound_forget | apply sound_append | exact Hreq].
  - apply pending_count_trims. now apply reserve_inner_trims.
  - apply reserve_resume_total.
  - intros e. now apply reserve_resume_raises_ValueError.
  - now apply reserve_resume_leaves_records.
Qed.

Lemma release_raise_unchanged (ts : Q) (does_not_count : bool)
    (self self' : RateLimit) (x : exn) :
  release ts does_not_count self = Raise x self' ->
  self' = self /\ does_not_count = true /\ pending_count (recents self) = 0%nat.
Proof.
  unfold release. destruct does_not_count; [|discriminate].
  pose proof (pending_count_remove (recents self)) as Hp.
  destruct (deque_remove_None (recents self)); [discriminate|].
  intros E. injection E as _ <-. auto.
Qed.

Lemma release_ok_pending (ts : Q) (does_not_count : bool) (self self' : RateLimit) :
  release ts does_not_count self = Ok self' ->
  pending_count (recents self') = pred (pending_count (recents self)).
Proof.
  unfold release. destruct does_not_count.
  - pose proof (pending_count_remove (recents self)) as Hp.
    destruct (deque_remove_None (recents self)) as [d|]; [|discriminate].
    intros E. now injection E as <-.
  - intros E. injection E as <-. apply pending_count_fill.
Qed.

Lemma steady_complete (success : bool) (w : traffic) :
  steady w -> steady (serve w (Complete success)).
Proof.
  intros HS. cbn [serve].
  destruct (stamped w) as [|ts rest]; [exact HS|].
  destruct HS as [Hreq Herr Hpend Hbl Hrun Hwt Hfail Hwaits].
  unfold finished_with.
  destruct (release ts false (request_limit (manager w))) as [r|x r] eqn:R1;
    [|discriminate].
  pose proof (sound_release _ _ _ _ _ _ Hreq R1) as Hreq'.
  pose proof (release_ok_pending _ _ _ _ R1) as Hp1.
  assert (Hne : recents r = [] -> recents (request_limit (manager w)) = []).
  { unfold release in R1. injection R1 as <-. rewrite recents_set_recents.
    intros H. apply (f_equal (@length _)) in H.
    rewrite fill_leftmost_pending_length in H.
    now destruct (recents (request_limit (manager w))). }
  destruct (release ts success (error_limit (manager w))) as [e|x e] eqn:R2.
  - pose proof (sound_release _ _ _ _ _ _ Herr R2) as Herr'.
    pose proof (release_ok_pending _ _ _ _ R2) as Hp2.
    do 2 apply steady_notify_gate.
    constructor; cbn [manager wall blocked runnable failures waits
                      request_limit error_limit]; auto.
    congruence.
  - destruct (release_raise_unchanged _ _ _ _ _ R2) as [-> [_ Hp0]].
    apply steady_notify_gate.
    constructor; cbn [manager wall blocked runnable failures waits
                      request_limit error_limit]; auto.
    rewrite Hp1, Hpend, Hp0. reflexivity.
Qed.

Lemma steady_serve (w : traffic) (c : request) : steady w -> steady (serve w c).
Proof.
  intros HS. destruct c as [| | |success|d].
  - now apply steady_enter.
  - now apply steady_resume.
  - destruct HS. constructor; assumption.
  - now apply steady_complete.
  - cbn [serve]. destruct (Qle_bool 0 d) eqn:D; [|exact HS].
    apply Qle_bool_iff in D.
    destruct HS as [Hreq Herr Hpend Hbl Hrun Hwt Hfail Hwaits].
    constructor; cbn [manager wall blocked runnable failures waits]; auto.
    + eapply waits_on_request_later; [|exact Hbl]. lra.
    + eapply waits_on_request_later; [|exact Hrun]. lra.
Qed.

Lemma steady_init : steady traffic_init.
Proof.
  constructor; cbn; try constructor; try (repeat split; simpl; lia);
    auto; repeat split; simpl; try lia; reflexivity.
Qed.

Lemma steady_serve_all (calls : list request) :
  forall w, steady w -> steady (serve_all w calls).
Proof.
  induction calls as [|c calls IH]; intros w HS; [exact HS|].
  apply IH. now apply steady_serve.
Qed.

(** X10: in every state of the manager reached from its construction the
    request limiter still has limit 30 and window 1 and holds at most 30
    records, and the error limiter still has limit 300 and window 180 and
    holds at most 300 records. *)
Theorem manager_limits_kept (calls : list request) :
  let m := manager (serve_all traffic_init calls) in
  limit (request_limit m) = 30%nat /\ window (request_limit m) = 1 /\
  (length (recents (request_limit m)) <= 30)%nat /\
  limit (error_limit m) = 300%nat /\ window (error_limit m) = 180 /\
  (length (recents (error_limit m)) <= 300)%nat.
Proof.
  pose proof (steady_serve_all calls _ steady_init) as HS.
  destruct (steady_request _ HS) as [[H1 H2] [H3 _]].
  destruct (steady_error _ HS) as [[H4 H5] [H6 _]].
  cbv zeta. auto 10.
Qed.

(** X16: along every schedule of the manager, every value returned by
    [block_until_can_start_new_request], also by a call that had to wait and
    was woken, is a non-negative number. *)
Theorem waits_are_nonnegative (calls : list request) :
  Forall (Qle 0) (waits (serve_all traffic_init calls)).
Proof. apply steady_waits. apply steady_serve_all. apply steady_init. Qed.


